(** * go-utils / itertools: a shallow embedding and its verification

    The Go package [itertools] (src/itertools/itertools.go, with the
    [ChunkResult] declaration and an early draft of the package in
    src/unnamed/part_000) is embedded function by function.

    - A slice [[]T] is a [list T]; its capacity is taken equal to its
      length.  [make([]T, n)] is [n] copies of the zero value of [T].
    - [int] is the 64-bit signed integer of the usual Go targets, kept as a
      [Z] with the wrap-around of every arithmetic operation written out.
    - A run-time panic (negative [make] length, slice bounds, index out of
      range, division by zero) is an explicit outcome of the [exec] monad.
    - A [map[K][]V] is a [gmap K (list V)].
    - Predicates, transforms and key functions are pure total functions.
    Memory exhaustion is outside the model. *)

From Stdlib Require Import ZArith Lia.
From stdpp Require Import base numbers option list gmap strings pretty.

(** ** Go's [int] *)

Module GoInt.
Local Open Scope Z_scope.

Definition bits : Z := 64.
Definition modulus : Z := 2 ^ bits.
Definition min_int : Z := - 2 ^ (bits - 1).
Definition max_int : Z := 2 ^ (bits - 1) - 1.

(** Two's complement reduction of a mathematical integer to an [int]. *)
Definition wrap (z : Z) : Z := (z - min_int) `mod` modulus + min_int.

Definition add (a b : Z) : Z := wrap (a + b).
Definition sub (a b : Z) : Z := wrap (a - b).
Definition mul (a b : Z) : Z := wrap (a * b).

End GoInt.

(** ** Run-time outcomes *)

Inductive exec (A : Type) : Type :=
| Ret (a : A)
| Panic (msg : string).
Arguments Ret {A} a.
Arguments Panic {A} msg.

#[global] Instance exec_ret : MRet exec := fun A a => Ret a.
#[global] Instance exec_bind : MBind exec := fun A B f m =>
  match m with
  | Ret a => f a
  | Panic msg => Panic msg
  end.

(** Go's [/] and [%] on [int]: truncated division, panicking on a zero
    divisor. *)
Definition int_div (a b : Z) : exec Z :=
  if (b =? 0)%Z then Panic "integer divide by zero"
  else Ret (GoInt.wrap (a ÷ b)).

Definition int_rem (a b : Z) : exec Z :=
  if (b =? 0)%Z then Panic "integer divide by zero"
  else Ret (Z.rem a b).

(** ** Slices *)

(** The zero value of a Go type. *)
Class ZeroValue (A : Type) := zero_value : A.
#[global] Instance slice_zero_value {A} : ZeroValue (list A) := [].
#[global] Instance string_zero_value : ZeroValue string := "".
#[global] Instance int_zero_value : ZeroValue Z := 0%Z.

(** [len(s)] *)
Definition len {A} (s : list A) : Z := Z.of_nat (length s).

(** [make([]A, n)] for a length computed at run time. *)
Definition make {A} `{ZeroValue A} (n : Z) : exec (list A) :=
  if (n <? 0)%Z then Panic "makeslice: len out of range"
  else Ret (replicate (Z.to_nat n) zero_value).

(** [make([]A, 0, c)]: an empty slice of capacity [c]. *)
Definition make_cap {A} (c : Z) : exec (list A) :=
  if (c <? 0)%Z then Panic "makeslice: cap out of range"
  else Ret [].

(** The slice expression [s[lo:hi]]. *)
Definition slice_expr {A} (s : list A) (lo hi : Z) : exec (list A) :=
  if ((0 <=? lo) && (lo <=? hi) && (hi <=? len s))%Z
  then Ret (take (Z.to_nat (hi - lo)) (drop (Z.to_nat lo) s))
  else Panic "slice bounds out of range".

(** The assignment [s[i] = v]. *)
Definition index_assign {A} (s : list A) (i : Z) (v : A) : exec (list A) :=
  if ((0 <=? i) && (i <? len s))%Z
  then Ret (<[Z.to_nat i := v]> s)
  else Panic "index out of range".

(** ** Errors *)

(** The value built by [fmt.Errorf]: an error carrying its message. *)
Record error : Type := errorString { Error : string }.

(** [fmt.Errorf("%d is not a valid chunk size, you must provide a positive
    integer", size)]; [%d] is the signed decimal rendering. *)
Definition Errorf_chunk_size (size : Z) : error :=
  errorString
    (pretty size +:+ " is not a valid chunk size, you must provide a positive integer").

(** ** src/unnamed/part_000: [ChunkResult] *)

Record ChunkResult (T : Type) : Type := mkChunkResult {
  Chunks : list (list T);
  ChunkSize : Z;
  Total : Z;
  Remainder : Z
}.
Arguments mkChunkResult {T} _ _ _ _.
Arguments Chunks {T} _.
Arguments ChunkSize {T} _.
Arguments Total {T} _.
Arguments Remainder {T} _.

(** ** src/itertools/itertools.go *)

Section Itertools.
Context {T : Type}.

(** [for _, elt := range iterable { if !predicate(elt) { return false } }] *)
Fixpoint All (iterable : list T) (predicate : T -> bool) : bool :=
  match iterable with
  | [] => true
  | elt :: rest => if negb (predicate elt) then false else All rest predicate
  end.

Fixpoint Any (iterable : list T) (predicate : T -> bool) : bool :=
  match iterable with
  | [] => false
  | elt :: rest => if predicate elt then true else Any rest predicate
  end.

(** The [range] loop of [TakeWhile]; [result] is the slice built so far and
    the [else] branch is the [break]. *)
Fixpoint TakeWhile_loop (predicate : T -> bool) (result rest : list T) : list T :=
  match rest with
  | [] => result
  | element :: rest' =>
      if predicate element
      then TakeWhile_loop predicate (result ++ [element]) rest'
      else result
  end.

Definition TakeWhile (iterable : list T) (predicate : T -> bool) : list T :=
  TakeWhile_loop predicate [] iterable.

(** The loop [for i := 0; i < len(iterable); i++] of [SkipWhile], run for the
    [n] iterations that remain from index [i], so that [i + n] is
    [len(iterable)] throughout and [iterable[i]] is within bounds
    ([loop_index_in_bounds]).  Leaving the loop returns [[]T{}]. *)
Fixpoint SkipWhile_loop (iterable : list T) (predicate : T -> bool)
    (n i : nat) : list T :=
  match n with
  | O => []
  | S n' =>
      match iterable !! i with
      | Some x =>
          if negb (predicate x)
          then [] ++ drop i iterable
          else SkipWhile_loop iterable predicate n' (S i)
      | None => []
      end
  end.

Definition SkipWhile (iterable : list T) (predicate : T -> bool) : list T :=
  SkipWhile_loop iterable predicate (length iterable) 0.

End Itertools.

Section MapDef.
Context {TIn TOut : Type}.

Fixpoint Map_loop (transformFn : TIn -> TOut) (result : list TOut)
    (rest : list TIn) : list TOut :=
  match rest with
  | [] => result
  | element :: rest' =>
      Map_loop transformFn (result ++ [transformFn element]) rest'
  end.

Definition Map (iterable : list TIn) (transformFn : TIn -> TOut) : list TOut :=
  Map_loop transformFn [] iterable.

End MapDef.

Section ChunkDef.
Context {T : Type}.

(** First loop of [Flatten]: [nElements += len(nestedIterable)]. *)
Fixpoint Flatten_count (nElements : Z) (rest : list (list T)) : Z :=
  match rest with
  | [] => nElements
  | nestedIterable :: rest' =>
      Flatten_count (GoInt.add nElements (len nestedIterable)) rest'
  end.

(** Second loop of [Flatten]: [flattened = append(flattened, nestedIterable...)]. *)
Fixpoint Flatten_loop (flattened : list T) (rest : list (list T)) : list T :=
  match rest with
  | [] => flattened
  | nestedIterable :: rest' => Flatten_loop (flattened ++ nestedIterable) rest'
  end.

Definition Flatten (iterable : list (list T)) : exec (list T) :=
  let nElements := Flatten_count 0 iterable in
  flattened ← make_cap nElements;
  mret (Flatten_loop flattened iterable).

(** The loop [for i := 0; i < nBatches; i++] of [Chunk], run for the [n]
    iterations that remain from index [i]. *)
Fixpoint Chunk_loop (iterable : list T) (size nBatches remainder : Z)
    (n : nat) (i : Z) (result : list (list T)) : exec (list (list T)) :=
  match n with
  | O => mret result
  | S n' =>
      let start := GoInt.mul i size in
      let end_ := GoInt.add start size in
      let end_ :=
        if ((i =? GoInt.sub nBatches 1) && (0 <? remainder))%Z
        then GoInt.add start remainder
        else end_ in
      chunk ← slice_expr iterable start end_;
      result' ← index_assign result i chunk;
      Chunk_loop iterable size nBatches remainder n' (GoInt.add i 1) result'
  end.

(** [Chunk] returns the pair (pointer to the result, error); a nil pointer
    and a nil error are [None]. *)
Definition Chunk (iterable : list T) (size : Z)
    : exec (option (ChunkResult T) * option error) :=
  if (size <=? 0)%Z then mret (None, Some (Errorf_chunk_size size))
  else
    let itemCount := len iterable in
    nBatches ← int_div (GoInt.sub (GoInt.add itemCount size) 1) size;
    remainder ← int_rem (len iterable) size;
    result ← make nBatches;
    result ← Chunk_loop iterable size nBatches remainder
               (Z.to_nat nBatches) 0 result;
    mret (Some (mkChunkResult result size (len iterable) remainder), None).

End ChunkDef.

Section GroupByDef.
Context {TKey TValue : Type} `{Countable TKey}.

(** One iteration of the loop of [GroupBy].  Reading a key that is absent
    yields the zero value, a nil slice. *)
Definition GroupBy_step (keyFn : TValue -> TKey)
    (result : gmap TKey (list TValue)) (element : TValue)
    : gmap TKey (list TValue) :=
  let key := keyFn element in
  let result :=
    match result !! key with
    | Some _ => result
    | None => <[key := []]> result
    end in
  <[key := default [] (result !! key) ++ [element]]> result.

Fixpoint GroupBy_loop (keyFn : TValue -> TKey)
    (result : gmap TKey (list TValue)) (rest : list TValue)
    : gmap TKey (list TValue) :=
  match rest with
  | [] => result
  | element :: rest' => GroupBy_loop keyFn (GroupBy_step keyFn result element) rest'
  end.

Definition GroupBy (iterable : list TValue) (keyFn : TValue -> TKey)
    : gmap TKey (list TValue) :=
  GroupBy_loop keyFn ∅ iterable.

End GroupByDef.

Section CountFilterForEach.
Context {T : Type}.

(** The [range] loop of [Count]: [if elt == item { occurence++ }].  The
    element type is [comparable]; [==] is taken to be decidable equality
    (no NaN, no interface holding an uncomparable value). *)
Fixpoint Count_loop `{EqDecision T} (elt : T) (occurence : Z) (rest : list T) : Z :=
  match rest with
  | [] => occurence
  | item :: rest' =>
      Count_loop elt
        (if bool_decide (elt = item) then GoInt.add occurence 1 else occurence)
        rest'
  end.

Definition Count `{EqDecision T} (iterable : list T) (elt : T) : Z :=
  Count_loop elt 0 iterable.

(** The [range] loop of [Filter]: [ok := predicate(element); if ok { result
    = append(result, element) }]. *)
Fixpoint Filter_loop (predicate : T -> bool) (result rest : list T) : list T :=
  match rest with
  | [] => result
  | element :: rest' =>
      let ok := predicate element in
      Filter_loop predicate (if ok then result ++ [element] else result) rest'
  end.

Definition Filter (iterable : list T) (predicate : T -> bool) : list T :=
  Filter_loop predicate [] iterable.

(** [ForEach] calls [fn] for its effect.  The effect is a transition of a
    state [St] that may panic; the state is threaded through the calls in
    slice order and a panic ends the traversal. *)
Fixpoint ForEach {St : Type} (iterable : list T) (fn : T -> St -> exec St)
    (st : St) : exec St :=
  match iterable with
  | [] => mret st
  | element :: rest => st' ← fn element st; ForEach rest fn st'
  end.

End CountFilterForEach.

(** ** src/unnamed/part_000: the early draft *)

Module Draft.
Section Draft.
Context {T : Type} `{ZeroValue T}.

(** Same loop as the later [TakeWhile], started from [make([]T, 1)]. *)
Definition TakeWhile (iterable : list T) (predicate : T -> bool) : list T :=
  TakeWhile_loop predicate (replicate 1 zero_value) iterable.

(** The loop [for i := 0; i < len(iterable); i++] of [DropWhile], run for
    the [n] iterations that remain from index [i]; the [then] branch appends
    [iterable[i+1:]] and breaks. *)
Fixpoint DropWhile_loop (iterable : list T) (predicate : T -> bool)
    (result : list T) (n i : nat) : list T :=
  match n with
  | O => result
  | S n' =>
      match iterable !! i with
      | Some x =>
          if predicate x
          then result ++ drop (S i) iterable
          else DropWhile_loop iterable predicate result n' (S i)
      | None => result
      end
  end.

Definition DropWhile (iterable : list T) (predicate : T -> bool) : list T :=
  DropWhile_loop iterable predicate (replicate 1 zero_value) (length iterable) 0.

End Draft.

(** [Count], [All], [Any] and [ForEach] of the draft are, line for line, the
    functions of the later package.  [Map], [Filter] and [Flatten] run the
    later loops from a buffer that [make] has already filled. *)

Section DraftTransform.
Context {TIn TOut : Type} `{ZeroValue TOut}.

(** [result := make([]TOut, len(iterable))], then the appending loop. *)
Definition Map (iterable : list TIn) (transformFn : TIn -> TOut) : list TOut :=
  Map_loop transformFn (replicate (length iterable) zero_value) iterable.

End DraftTransform.

Section DraftSelect.
Context {T : Type} `{ZeroValue T}.

(** [result := make([]T, len(iterable))], then the appending loop. *)
Definition Filter (iterable : list T) (predicate : T -> bool) : list T :=
  Filter_loop predicate (replicate (length iterable) zero_value) iterable.

(** [flattened := make([]T, nElements)], then the appending loop. *)
Definition Flatten (iterable : list (list T)) : exec (list T) :=
  let nElements := Flatten_count 0 iterable in
  flattened ← make nElements;
  mret (Flatten_loop flattened iterable).

(** The draft [Chunk]: the later function without the size check, returning
    the pointer alone. *)
Definition Chunk (iterable : list T) (size : Z) : exec (ChunkResult T) :=
  nBatches ← int_div (GoInt.sub (GoInt.add (len iterable) size) 1) size;
  remainder ← int_rem (len iterable) size;
  result ← make nBatches;
  result ← Chunk_loop iterable size nBatches remainder
             (Z.to_nat nBatches) 0 result;
  mret (mkChunkResult result size (len iterable) remainder).

End DraftSelect.
End Draft.

(** ** The behaviour in the words of the specification

    These definitions follow spec.md, not the code; the theorems below
    compare the embedded functions with them. *)

Section SpecWords.
Context {T : Type}.

(** "negate(p)" *)
Definition negate (p : T -> bool) : T -> bool := fun x => negb (p x).

Definition satisfies (p : T -> bool) (x : T) : Prop := p x = true.

(** "the longest prefix of elements that all satisfy predicate" *)
Definition longest_satisfying_prefix (p : T -> bool) (s r : list T) : Prop :=
  r `prefix_of` s /\
  Forall (satisfies p) r /\
  forall r', r' `prefix_of` s -> Forall (satisfies p) r' -> length r' <= length r.

(** "the first element that does NOT satisfy predicate", by its index *)
Definition first_failing (p : T -> bool) (s : list T) (i : nat) : Prop :=
  (exists x, s !! i = Some x /\ p x = false) /\
  Forall (satisfies p) (take i s).

(** "the suffix of the sequence starting at the first element that does NOT
    satisfy predicate, inclusive, through the end ... an empty sequence if
    every element satisfies predicate" *)
Definition suffix_from_first_failing (p : T -> bool) (s r : list T) : Prop :=
  (exists i, first_failing p s i /\ r = drop i s) \/
  (Forall (satisfies p) s /\ r = []).

End SpecWords.

(** *** Reference functions for [Chunk] *)

(** "ceil(len(seq) / size)" for a positive divisor *)
Definition ceil_div (a b : Z) : Z :=
  (a / b + (if a `mod` b =? 0 then 0 else 1))%Z.

(** The [j]-th group of [size] consecutive elements of [s]. *)
Definition chunk_at {T} (s : list T) (size : Z) (j : nat) : list T :=
  take (Z.to_nat size) (drop (j * Z.to_nat size) s).

(** The groups a slice of [len s] elements splits into. *)
Definition chunks_of {T} (s : list T) (size : Z) : list (list T) :=
  chunk_at s size <$> seq 0 (Z.to_nat (ceil_div (len s) size)).

(** The inputs on which the ceiling division of [Chunk],
    [(itemCount + size - 1) / size], stays within [int]. *)
Definition chunk_in_range {T} (s : list T) (size : Z) : Prop :=
  (0 < size /\ len s + size - 1 <= GoInt.max_int)%Z.

(** The predicate of the package's tests: [len(s) == 3]. *)
Definition has_length_3 (s : string) : bool := bool_decide (String.length s = 3).

(** The slice of strings of the package's tests. *)
Definition test_strings : list string := ["foo"; "bar"; "aba"; "z"; "45"].

(** * Verification *)

(** ** Scans: [All] and [Any] *)

Lemma All_Forall {T} (s : list T) (p : T -> bool) :
  All s p = true <-> Forall (satisfies p) s.
Proof.
  induction s as [|x s IH]; simpl.
  - split; [constructor | reflexivity].
  - unfold satisfies at 1. destruct (p x) eqn:Hx; simpl.
    + rewrite IH. split; [by constructor | by inversion 1].
    + split; [discriminate | inversion 1; congruence].
Qed.

Lemma Any_Exists {T} (s : list T) (p : T -> bool) :
  Any s p = true <-> Exists (satisfies p) s.
Proof.
  induction s as [|x s IH]; simpl.
  - split; [discriminate | by inversion 1].
  - destruct (p x) eqn:Hx.
    + split; [by left | reflexivity].
    + rewrite IH. split; [by right |].
      inversion 1 as [? ? Hp|]; subst; [|done].
      unfold satisfies in Hp. congruence.
Qed.

(** C5. [All(s, p)] is the negation of [Any(s, negate(p))] for every
    sequence and predicate; on the empty sequence [All] is true and [Any] is
    false. *)
Theorem All_is_not_Any_negate :
  forall (T : Type) (s : list T) (p : T -> bool),
    All s p = negb (Any s (negate p)) /\
    All [] p = true /\
    Any [] p = false.
Proof.
  intros T s p. split; [|split; reflexivity].
  induction s as [|x s IH]; [reflexivity|].
  simpl. unfold negate at 1. destruct (p x); simpl; [exact IH | reflexivity].
Qed.

(** ** [Map] *)

Lemma Map_loop_fmap {A B} (f : A -> B) (s : list A) (acc : list B) :
  Map_loop f acc s = acc ++ (f <$> s).
Proof.
  revert acc. induction s as [|x s IH]; intros acc; simpl.
  - by rewrite app_nil_r.
  - rewrite IH. by rewrite <- app_assoc.
Qed.

(** C7. [Map(s, f)] has the length of [s], and its element at every index
    [i] is [f] applied to the element of [s] at [i] (so no element exists
    past the end of [s]). *)
Theorem Map_same_length_pointwise :
  forall (TIn TOut : Type) (s : list TIn) (f : TIn -> TOut),
    length (Map s f) = length s /\
    forall i : nat, Map s f !! i = f <$> (s !! i).
Proof.
  intros TIn TOut s f. unfold Map. rewrite Map_loop_fmap. simpl. split.
  - apply length_fmap.
  - intros i. apply list_lookup_fmap.
Qed.

(** ** Prefix and suffix by predicate: [TakeWhile] and [SkipWhile] *)

(** With [n + 1] iterations left from index [i] of a loop that ends at
    [len(s)], the element [s[i]] exists: the index loops never read out of
    bounds. *)
Lemma loop_index_in_bounds {T} (s : list T) (n i : nat) :
  i + S n = length s -> is_Some (s !! i).
Proof. intros Hlen. apply lookup_lt_is_Some. lia. Qed.

Lemma TakeWhile_loop_acc {T} (p : T -> bool) (acc s : list T) :
  TakeWhile_loop p acc s = acc ++ TakeWhile_loop p [] s.
Proof.
  revert acc. induction s as [|x s IH]; intros acc; simpl.
  - by rewrite app_nil_r.
  - destruct (p x).
    + rewrite (IH (acc ++ [x])), (IH [x]). by rewrite <- app_assoc.
    + by rewrite app_nil_r.
Qed.

Lemma TakeWhile_cons {T} (x : T) (s : list T) (p : T -> bool) :
  TakeWhile (x :: s) p = if p x then x :: TakeWhile s p else [].
Proof.
  unfold TakeWhile. simpl. destruct (p x); [|reflexivity].
  by rewrite TakeWhile_loop_acc.
Qed.

Lemma SkipWhile_loop_shift {T} (x : T) (s : list T) (p : T -> bool) (n i : nat) :
  SkipWhile_loop (x :: s) p n (S i) = SkipWhile_loop s p n i.
Proof.
  revert i. induction n as [|n IH]; intros i; simpl; [reflexivity|].
  destruct (s !! i) as [y|]; [|reflexivity].
  destruct (p y); simpl; [apply IH | reflexivity].
Qed.

Lemma SkipWhile_cons {T} (x : T) (s : list T) (p : T -> bool) :
  SkipWhile (x :: s) p = if p x then SkipWhile s p else x :: s.
Proof.
  unfold SkipWhile. simpl. destruct (p x); simpl; [|reflexivity].
  apply SkipWhile_loop_shift.
Qed.

(** Both functions cut the slice at one and the same index: everything
    before it satisfies the predicate, and the element at it, if any, does
    not. *)
Lemma TakeWhile_SkipWhile_cut {T} (s : list T) (p : T -> bool) :
  exists i : nat,
    TakeWhile s p = take i s /\
    SkipWhile s p = drop i s /\
    Forall (satisfies p) (take i s) /\
    match s !! i with Some x => p x = false | None => True end.
Proof.
  induction s as [|x s (i & Ht & Hs & Hall & Hat)].
  - exists 0. repeat split; constructor.
  - rewrite TakeWhile_cons, SkipWhile_cons. destruct (p x) eqn:Hx.
    + exists (S i). simpl. rewrite Ht, Hs. repeat split; [|exact Hat].
      by constructor.
    + exists 0. simpl. repeat split; [constructor | exact Hx].
Qed.

Lemma TakeWhile_longest_prefix {T} (s : list T) (p : T -> bool) :
  longest_satisfying_prefix p s (TakeWhile s p).
Proof.
  destruct (TakeWhile_SkipWhile_cut s p) as (i & Ht & _ & Hall & Hat).
  rewrite Ht. repeat split.
  - apply prefix_take.
  - exact Hall.
  - intros r' [k Hk] Hr'. rewrite length_take.
    destruct (s !! i) as [x|] eqn:Hi.
    + apply lookup_lt_Some in Hi as Hlt.
      destruct (decide (length r' <= i)) as [|Hgt]; [lia|].
      exfalso. assert (Hx : r' !! i = Some x).
      { rewrite <- Hi, Hk. symmetry. apply lookup_app_l. lia. }
      rewrite Forall_lookup in Hr'. specialize (Hr' _ _ Hx).
      unfold satisfies in Hr'. congruence.
    + apply lookup_ge_None in Hi. subst s. rewrite length_app in *. lia.
Qed.

Lemma SkipWhile_suffix {T} (s : list T) (p : T -> bool) :
  suffix_from_first_failing p s (SkipWhile s p).
Proof.
  destruct (TakeWhile_SkipWhile_cut s p) as (i & _ & Hs & Hall & Hat).
  rewrite Hs. destruct (s !! i) as [x|] eqn:Hi.
  - left. exists i. split; [|reflexivity]. split; [|exact Hall]. by exists x.
  - right. apply lookup_ge_None in Hi. split.
    + by rewrite take_ge in Hall.
    + by apply drop_ge.
Qed.

(** C6. [SkipWhile(s, p)] is the suffix of [s] that starts at the first
    element not satisfying [p], that element included; when every element
    satisfies [p] (the empty slice included) it is empty.  On the slice of
    the tests it returns ["z"; "45"]. *)
Theorem SkipWhile_is_suffix_from_first_failing :
  forall (T : Type) (s : list T) (p : T -> bool),
    suffix_from_first_failing p s (SkipWhile s p) /\
    (All s p = true <-> SkipWhile s p = [] ) /\
    SkipWhile test_strings has_length_3 = ["z"; "45"].
Proof.
  intros T s p. split; [apply SkipWhile_suffix|]. split; [|reflexivity].
  rewrite All_Forall.
  destruct (TakeWhile_SkipWhile_cut s p) as (i & _ & Hs & Hall & Hat).
  rewrite Hs. destruct (s !! i) as [x|] eqn:Hi.
  - apply lookup_lt_Some in Hi as Hlt. split.
    + intros Hf. rewrite Forall_lookup in Hf. specialize (Hf _ _ Hi).
      unfold satisfies in Hf. congruence.
    + intros Hd. apply (f_equal length) in Hd. rewrite length_drop in Hd.
      simpl in Hd. lia.
  - apply lookup_ge_None in Hi. rewrite take_ge in Hall by lia.
    split; [intros _; by apply drop_ge | by intros _].
Qed.

Lemma TakeWhile_SkipWhile_app {T} (s : list T) (p : T -> bool) :
  TakeWhile s p ++ SkipWhile s p = s.
Proof.
  destruct (TakeWhile_SkipWhile_cut s p) as (i & -> & -> & _).
  apply take_drop.
Qed.

(** C4, as the specification states it, fails: no slice and predicate
    exist, at any element type, for which [TakeWhile] followed by
    [SkipWhile] differs from the input. *)
Lemma TakeWhile_SkipWhile_never_differ :
  ~ exists (T : Type) (s : list T) (p : T -> bool),
      TakeWhile s p ++ SkipWhile s p <> s.
Proof.
  intros (T & s & p & Hne). apply Hne, TakeWhile_SkipWhile_app.
Qed.

(** C4, amended. [TakeWhile] and [SkipWhile] applied with the same
    predicate always recombine: their concatenation, in this order, is the
    original slice, with the lengths adding up accordingly. *)
Theorem TakeWhile_SkipWhile_recombine :
  forall (T : Type) (s : list T) (p : T -> bool),
    TakeWhile s p ++ SkipWhile s p = s /\
    length (TakeWhile s p) + length (SkipWhile s p) = length s.
Proof.
  intros T s p. split; [apply TakeWhile_SkipWhile_app|].
  rewrite <- length_app. by rewrite TakeWhile_SkipWhile_app.
Qed.

(** C10. [TakeWhile] stops before the first failing element and
    [SkipWhile] starts at that same element: there is an index [i] such
    that [TakeWhile(s, p)] is the first [i] elements of [s], all of which
    satisfy [p], [SkipWhile(s, p)] is [s] without its first [i] elements,
    and the element at [i], when there is one, fails [p].  Hence the two
    results are exact complements. *)
Theorem TakeWhile_SkipWhile_complement :
  forall (T : Type) (s : list T) (p : T -> bool),
    (exists i : nat,
       TakeWhile s p = take i s /\
       SkipWhile s p = drop i s /\
       Forall (satisfies p) (take i s) /\
       match s !! i with Some x => p x = false | None => True end) /\
    TakeWhile s p ++ SkipWhile s p = s.
Proof.
  intros T s p. split.
  - apply TakeWhile_SkipWhile_cut.
  - apply TakeWhile_SkipWhile_app.
Qed.

(** ** The early draft against the later package *)

Lemma Draft_TakeWhile_zero {T} `{ZeroValue T} (s : list T) (p : T -> bool) :
  Draft.TakeWhile s p = zero_value :: TakeWhile s p.
Proof.
  unfold Draft.TakeWhile, TakeWhile. simpl.
  by rewrite TakeWhile_loop_acc.
Qed.

Lemma Draft_DropWhile_nonempty {T} `{ZeroValue T} (s : list T) (p : T -> bool) :
  exists r, Draft.DropWhile s p = zero_value :: r.
Proof.
  unfold Draft.DropWhile. simpl.
  generalize 0 as i. induction (length s) as [|n IH]; intros i; simpl.
  - by exists [].
  - destruct (s !! i) as [x|]; [|by exists []].
    destruct (p x); [by eexists | apply IH].
Qed.

(** C9. The draft [TakeWhile] and [DropWhile], which start from
    [make([]T, 1)], are not extensionally equal to the later [TakeWhile] and
    [SkipWhile]: on the slice of the tests with the predicate [len(s) == 3]
    the results differ (the draft [TakeWhile] differs on every input, its
    result being the later one behind a zero value).  The later versions
    meet the specified behaviour on every input (longest satisfying prefix;
    suffix from the first failing element), the draft versions do not meet
    it on that test input. *)
Theorem Draft_differs_from_corrected :
  (Draft.TakeWhile test_strings has_length_3 = [""; "foo"; "bar"; "aba"] /\
   TakeWhile test_strings has_length_3 = ["foo"; "bar"; "aba"] /\
   Draft.DropWhile test_strings has_length_3 = [""; "bar"; "aba"; "z"; "45"] /\
   SkipWhile test_strings has_length_3 = ["z"; "45"]) /\
  (exists (s : list string) (p : string -> bool),
     Draft.TakeWhile s p <> TakeWhile s p) /\
  (exists (s : list string) (p : string -> bool),
     Draft.DropWhile s p <> SkipWhile s p) /\
  (forall (T : Type) (Z0 : ZeroValue T) (s : list T) (p : T -> bool),
     Draft.TakeWhile s p <> TakeWhile s p) /\
  (forall (T : Type) (s : list T) (p : T -> bool),
     longest_satisfying_prefix p s (TakeWhile s p) /\
     suffix_from_first_failing p s (SkipWhile s p)) /\
  ~ longest_satisfying_prefix has_length_3 test_strings
      (Draft.TakeWhile test_strings has_length_3) /\
  ~ suffix_from_first_failing has_length_3 test_strings
      (Draft.DropWhile test_strings has_length_3).
Proof.
  split; [repeat split|].
  split; [exists test_strings, has_length_3; discriminate|].
  split; [exists test_strings, has_length_3; discriminate|].
  split.
  { intros T Z0 s p. rewrite Draft_TakeWhile_zero. intros Heq.
    apply (f_equal length) in Heq. simpl in Heq. lia. }
  split.
  { intros T s p. split; [apply TakeWhile_longest_prefix | apply SkipWhile_suffix]. }
  split.
  - intros [[k Hk] _]. discriminate Hk.
  - intros [(i & _ & Heq) | [_ Heq]]; [|discriminate Heq].
    destruct i as [|i]; [discriminate Heq|].
    apply (f_equal length) in Heq. rewrite length_drop in Heq.
    simpl in Heq. lia.
Qed.

(** ** [GroupBy] *)

Section GroupByProofs.
Context {TKey TValue : Type} `{Countable TKey}.
Implicit Types (m : gmap TKey (list TValue)) (s : list TValue) (k : TKey).

Lemma GroupBy_step_lookup (f : TValue -> TKey) m (e : TValue) k :
  GroupBy_step f m e !! k =
    if decide (f e = k) then Some (default [] (m !! k) ++ [e]) else m !! k.
Proof.
  unfold GroupBy_step. destruct (decide (f e = k)) as [->|Hne].
  - rewrite lookup_insert_eq.
    destruct (m !! k) eqn:Hk; [by rewrite Hk | by rewrite lookup_insert_eq].
  - rewrite lookup_insert_ne by done.
    destruct (m !! f e); [done|]. by rewrite lookup_insert_ne.
Qed.

Lemma GroupBy_loop_lookup (f : TValue -> TKey) s m k :
  GroupBy_loop f m s !! k =
    match m !! k, filter (fun x => f x = k) s with
    | None, [] => None
    | o, g => Some (default [] o ++ g)
    end.
Proof.
  revert m. induction s as [|e s IH]; intros m; simpl.
  - destruct (m !! k); simpl; [by rewrite app_nil_r | done].
  - rewrite IH, GroupBy_step_lookup, filter_cons.
    destruct (decide (f e = k)) as [Heq|Hne]; simpl.
    + rewrite <- app_assoc. simpl. by destruct (m !! k).
    + done.
Qed.

Lemma GroupBy_lookup (f : TValue -> TKey) s k :
  GroupBy s f !! k =
    if decide (k ∈ f <$> s) then Some (filter (fun x => f x = k) s) else None.
Proof.
  unfold GroupBy. rewrite GroupBy_loop_lookup, lookup_empty.
  destruct (decide (k ∈ f <$> s)) as [Hin|Hnin].
  - apply list_elem_of_fmap in Hin as (x & -> & Hx).
    assert (Hf : x ∈ filter (fun y => f y = f x) s)
      by (by apply list_elem_of_filter).
    destruct (filter _ s); [by apply elem_of_nil in Hf | done].
  - destruct (filter _ s) as [|y g] eqn:Hg; [done|]. exfalso. apply Hnin.
    assert (Hy : y ∈ filter (fun x => f x = k) s) by (rewrite Hg; left).
    apply list_elem_of_filter in Hy as [<- Hy].
    apply list_elem_of_fmap. by exists y.
Qed.

End GroupByProofs.

(** C8. The key set of [GroupBy(s, keyFn)] is exactly the set of values of
    [keyFn] on the elements of [s], and the group stored under every key [k]
    is the subsequence of the elements of [s] whose key is [k], in their
    order in [s]; a value [keyFn] never produces has no entry.  On the
    strings of the tests grouped by length the map is
    [{1: ["a"; "b"], 2: ["aa"], 3: ["bbb"]}]. *)
Theorem GroupBy_groups_by_key :
  forall (TKey TValue : Type) (EqK : EqDecision TKey) (CntK : Countable TKey)
         (s : list TValue) (keyFn : TValue -> TKey),
    dom (GroupBy s keyFn) = list_to_set (keyFn <$> s) /\
    (forall k : TKey,
       GroupBy s keyFn !! k =
         if decide (k ∈ keyFn <$> s)
         then Some (filter (fun x => keyFn x = k) s)
         else None) /\
    GroupBy ["a"; "aa"; "b"; "bbb"] String.length =
      <[1 := ["a"; "b"]]> (<[2 := ["aa"]]> (<[3 := ["bbb"]]> ∅)).
Proof.
  intros TKey TValue EqK CntK s keyFn. split; [|split].
  - apply set_eq. intros k.
    rewrite elem_of_dom, GroupBy_lookup, elem_of_list_to_set.
    destruct (decide (k ∈ keyFn <$> s)) as [Hin|Hnin].
    + split; [done | by eexists].
    + split; [by intros [? ?] | done].
  - intros k. apply GroupBy_lookup.
  - apply map_eq. intros k. rewrite GroupBy_lookup.
    destruct (decide (k = 1)) as [->|?]; [reflexivity|].
    destruct (decide (k = 2)) as [->|?]; [reflexivity|].
    destruct (decide (k = 3)) as [->|?]; [reflexivity|].
    rewrite !lookup_insert_ne, lookup_empty by done.
    case_decide as Hin; [|done]. exfalso.
    repeat (apply elem_of_cons in Hin as [->|Hin]; [done|]).
    by apply elem_of_nil in Hin.
Qed.

(** ** [int] arithmetic *)

Lemma wrap_in_range (z : Z) :
  (GoInt.min_int <= z <= GoInt.max_int)%Z -> GoInt.wrap z = z.
Proof.
  unfold GoInt.wrap, GoInt.min_int, GoInt.max_int, GoInt.modulus, GoInt.bits.
  intros Hz. rewrite Z.mod_small; lia.
Qed.

(** [a + b - c] wraps once at most: an overflow of the sum is undone by the
    subtraction when the exact result is in range. *)
Lemma sub_add_wrap (a b c : Z) :
  GoInt.sub (GoInt.add a b) c = GoInt.wrap (a + b - c).
Proof.
  unfold GoInt.sub, GoInt.add, GoInt.wrap. f_equal.
  replace ((a + b - GoInt.min_int) `mod` GoInt.modulus + GoInt.min_int - c
           - GoInt.min_int)%Z
    with ((a + b - GoInt.min_int) `mod` GoInt.modulus - c)%Z by lia.
  rewrite Zminus_mod_idemp_l. f_equal. lia.
Qed.

Lemma max_int_value : GoInt.max_int = 9223372036854775807%Z.
Proof. reflexivity. Qed.

Lemma min_int_value : GoInt.min_int = (-9223372036854775808)%Z.
Proof. reflexivity. Qed.

Lemma len_nonneg {A} (s : list A) : (0 <= len s)%Z.
Proof. unfold len. lia. Qed.

(** For a positive divisor [ceil_div a b] is the least [q] with
    [a <= q * b]. *)
Lemma ceil_div_least (a b : Z) :
  (0 < b)%Z ->
  (a <= ceil_div a b * b)%Z /\ (forall q, a <= q * b -> ceil_div a b <= q)%Z.
Proof.
  intros Hb. unfold ceil_div.
  pose proof (Z.div_mod a b ltac:(lia)) as Hdm.
  pose proof (Z.mod_pos_bound a b Hb) as Hm.
  destruct (Z.eqb_spec (a `mod` b) 0) as [H0|H0];
    (split; [|intros q Hq]); nia.
Qed.

(** The ceiling division as [Chunk] computes it, without overflow. *)
Lemma ceil_div_add_pred (n b : Z) :
  (0 <= n)%Z -> (0 < b)%Z -> ((n + b - 1) ÷ b = ceil_div n b)%Z.
Proof.
  intros Hn Hb. rewrite Z.quot_div_nonneg by lia. unfold ceil_div.
  pose proof (Z.div_mod n b ltac:(lia)) as Hdm.
  pose proof (Z.mod_pos_bound n b Hb) as Hm.
  destruct (Z.eqb_spec (n `mod` b) 0) as [H0|H0].
  - symmetry. apply (Z.div_unique _ _ _ (b - 1)); lia.
  - symmetry. apply (Z.div_unique _ _ _ (n `mod` b - 1)); lia.
Qed.

(** ** [Chunk] where the ceiling division does not overflow *)

Section ChunkInRange.
Context {T : Type} (s : list T) (size : Z).
Hypothesis Hrange : chunk_in_range s size.

Lemma chunk_arith :
  (0 <= len s `mod` size < size /\
   0 <= ceil_div (len s) size /\
   len s <= ceil_div (len s) size * size <= len s + size - 1 /\
   (len s `mod` size = 0 -> ceil_div (len s) size * size = len s) /\
   (0 < len s `mod` size ->
      (ceil_div (len s) size - 1) * size + len s `mod` size = len s))%Z.
Proof.
  destruct Hrange as [Hsize _]. pose proof (len_nonneg s) as Hn.
  pose proof (Z.div_mod (len s) size ltac:(lia)) as Hdm.
  pose proof (Z.mod_pos_bound (len s) size Hsize) as Hm.
  assert (0 <= len s / size)%Z by (apply Z.div_pos; lia).
  unfold ceil_div.
  destruct (Z.eqb_spec (len s `mod` size) 0) as [H0|H0]; repeat split; nia.
Qed.

(** The slice expression of iteration [j] stays within bounds and yields
    the [j]-th group. *)
Lemma Chunk_slice (j : nat) :
  (Z.of_nat j < ceil_div (len s) size)%Z ->
  slice_expr s (GoInt.mul (Z.of_nat j) size)
    (if ((Z.of_nat j =? GoInt.sub (ceil_div (len s) size) 1)
         && (0 <? len s `mod` size))%Z
     then GoInt.add (GoInt.mul (Z.of_nat j) size) (len s `mod` size)
     else GoInt.add (GoInt.mul (Z.of_nat j) size) size)
  = Ret (chunk_at s size j).
Proof.
  intros Hj. destruct Hrange as [Hsize Hmax].
  destruct chunk_arith as (Hr & HnB & [Hlo Hhi] & Hr0 & Hr1).
  pose proof max_int_value as Hmaxv. pose proof min_int_value as Hminv.
  set (i := Z.of_nat j) in *. set (nB := ceil_div (len s) size) in *.
  set (r := (len s `mod` size)%Z) in *.
  assert (Hi : (0 <= i)%Z) by (unfold i; lia).
  assert (Hstart : (0 <= i * size <= nB * size - size)%Z) by nia.
  assert (Hnat : Z.to_nat (i * size) = j * Z.to_nat size).
  { rewrite Z2Nat.inj_mul by lia. unfold i. by rewrite Nat2Z.id. }
  unfold GoInt.mul, GoInt.sub, GoInt.add.
  rewrite (wrap_in_range (i * size)) by lia.
  rewrite (wrap_in_range (nB - 1)) by lia.
  unfold chunk_at, slice_expr.
  destruct (Z.eqb_spec i (nB - 1)) as [Hlast|Hnot]; simpl;
    [destruct (Z.ltb_spec 0 r) as [Hpos|Hzero]|].
  - (* the last group, shortened to the remainder *)
    specialize (Hr1 Hpos).
    rewrite (wrap_in_range (i * size + r)) by lia.
    replace (i * size + r)%Z with (len s) by nia.
    assert (Hle : (0 <=? i * size)%Z && (i * size <=? len s)%Z
                  && (len s <=? len s)%Z = true).
    { rewrite !andb_true_iff, !Z.leb_le. lia. }
    rewrite Hle, Hnat.
    rewrite !take_ge; [done| |]; rewrite length_drop; unfold len in *; nia.
  - (* the last group of an evenly divisible slice *)
    assert (r = 0%Z) as Hr00 by lia. specialize (Hr0 Hr00).
    rewrite (wrap_in_range (i * size + size)) by nia.
    assert (Hle : (0 <=? i * size)%Z && (i * size <=? i * size + size)%Z
                  && (i * size + size <=? len s)%Z = true).
    { rewrite !andb_true_iff, !Z.leb_le. nia. }
    rewrite Hle, Hnat. by replace (i * size + size - i * size)%Z with size by lia.
  - (* a group before the last *)
    assert (i * size + size <= len s)%Z.
    { destruct (Z.eq_dec r 0%Z) as [Hr00|Hrn].
      - specialize (Hr0 Hr00). nia.
      - assert (0 < r)%Z as Hpos by lia. specialize (Hr1 Hpos). nia. }
    rewrite (wrap_in_range (i * size + size)) by lia.
    assert (Hle : (0 <=? i * size)%Z && (i * size <=? i * size + size)%Z
                  && (i * size + size <=? len s)%Z = true).
    { rewrite !andb_true_iff, !Z.leb_le. lia. }
    rewrite Hle, Hnat. by replace (i * size + size - i * size)%Z with size by lia.
Qed.

Lemma Chunk_loop_chunks (k : nat) :
  forall (j : nat) (pre : list (list T)),
    j + k = Z.to_nat (ceil_div (len s) size) ->
    length pre = j ->
    Chunk_loop s size (ceil_div (len s) size) (len s `mod` size) k
      (Z.of_nat j) (pre ++ replicate k [])
    = Ret (pre ++ (chunk_at s size <$> seq j k)).
Proof.
  induction k as [|k IH]; intros j pre Hjk Hpre.
  - reflexivity.
  - cbn [Chunk_loop]. cbv zeta. rewrite Chunk_slice by lia.
    cbn [mbind exec_bind]. unfold index_assign.
    assert (Hin : (0 <=? Z.of_nat j)%Z
                  && (Z.of_nat j <? len (pre ++ replicate (S k) []))%Z = true).
    { rewrite andb_true_iff, Z.leb_le, Z.ltb_lt. unfold len.
      rewrite length_app, length_replicate. lia. }
    rewrite Hin, Nat2Z.id. cbn [mbind exec_bind].
    rewrite insert_app_r_alt by lia.
    replace (j - length pre) with 0 by lia. cbn [replicate list_insert insert].
    assert (Hnext : GoInt.add (Z.of_nat j) 1 = Z.of_nat (S j)).
    { unfold GoInt.add. destruct Hrange as [Hsize Hmax].
      destruct chunk_arith as (_ & HnB & [_ Hhi] & _).
      pose proof max_int_value. pose proof min_int_value.
      rewrite wrap_in_range; nia. }
    rewrite Hnext, cons_middle, app_assoc.
    rewrite IH by (rewrite ?length_app; simpl; lia).
    by rewrite <- app_assoc.
Qed.

(** [Chunk] returns the groups [chunks_of] with the length as [Total] and
    [len s mod size] as [Remainder], and a nil error. *)
Lemma Chunk_in_range_result :
  Chunk s size =
    Ret (Some (mkChunkResult (chunks_of s size) size (len s) (len s `mod` size)),
         None).
Proof.
  destruct Hrange as [Hsize Hmax].
  destruct chunk_arith as (Hr & HnB & [Hlo Hhi] & _).
  pose proof max_int_value. pose proof min_int_value.
  pose proof (len_nonneg s) as Hn.
  unfold Chunk, int_div, int_rem.
  destruct (Z.leb_spec size 0) as [|_]; [lia|].
  destruct (Z.eqb_spec size 0) as [|_]; [lia|].
  cbn [mbind exec_bind].
  rewrite sub_add_wrap, (wrap_in_range (len s + size - 1)) by lia.
  rewrite ceil_div_add_pred by lia.
  rewrite (wrap_in_range (ceil_div (len s) size)) by nia.
  rewrite Z.rem_mod_nonneg by lia.
  unfold make. destruct (Z.ltb_spec (ceil_div (len s) size) 0) as [|_]; [lia|].
  cbn [mbind exec_bind].
  pose proof (Chunk_loop_chunks (Z.to_nat (ceil_div (len s) size)) 0 []
                eq_refl eq_refl) as Hloop.
  cbn [app] in Hloop. change (@zero_value (list T) _) with (@nil T).
  change (Z.of_nat 0) with 0%Z in Hloop. rewrite Hloop.
  reflexivity.
Qed.

End ChunkInRange.

(** ** The groups and their concatenation *)

Lemma concat_chunk_at {T} (s : list T) (size : Z) (k : nat) :
  forall j : nat,
    concat (chunk_at s size <$> seq j k)
    = take (k * Z.to_nat size) (drop (j * Z.to_nat size) s).
Proof.
  induction k as [|k IH]; intros j; [by rewrite take_0|].
  cbn [seq fmap list_fmap concat]. rewrite IH. unfold chunk_at.
  replace (S j * Z.to_nat size) with (j * Z.to_nat size + Z.to_nat size) by lia.
  rewrite <- drop_drop, take_take_drop. f_equal.
Qed.

Lemma concat_chunks_of {T} (s : list T) (size : Z) :
  (0 < size)%Z -> concat (chunks_of s size) = s.
Proof.
  intros Hsize. unfold chunks_of. rewrite concat_chunk_at. simpl.
  apply take_ge. destruct (ceil_div_least (len s) size Hsize) as [Hle _].
  pose proof (len_nonneg s). unfold len in *. nia.
Qed.

Lemma length_chunks_of {T} (s : list T) (size : Z) :
  (0 < size)%Z -> len (chunks_of s size) = ceil_div (len s) size.
Proof.
  intros Hsize. unfold chunks_of, len at 1.
  rewrite length_fmap, length_seq, Z2Nat.id; [done|].
  unfold ceil_div. pose proof (len_nonneg s).
  assert (0 <= len s / size)%Z by (apply Z.div_pos; lia).
  destruct (_ =? _)%Z; lia.
Qed.

(** Every group but the last is full; the last holds the remainder, or is
    full when the length is a multiple of the size. *)
Lemma chunks_of_lengths {T} (s : list T) (size : Z) (j : nat) (c : list T) :
  (0 < size)%Z ->
  chunks_of s size !! j = Some c ->
  (S j < length (chunks_of s size) -> len c = size) /\
  (S j = length (chunks_of s size) ->
     len c = if (len s `mod` size =? 0)%Z then size else (len s `mod` size)%Z).
Proof.
  intros Hsize Hc.
  pose proof (length_chunks_of s size Hsize) as Hlen.
  apply lookup_lt_Some in Hc as Hj.
  unfold chunks_of in Hc. rewrite list_lookup_fmap in Hc.
  destruct (seq _ _ !! j) as [j'|] eqn:Hseq; [|done].
  apply lookup_seq in Hseq as [-> _]. simpl in Hc. injection Hc as <-.
  pose proof (Z.div_mod (len s) size ltac:(lia)) as Hdm.
  pose proof (Z.mod_pos_bound (len s) size Hsize) as Hm.
  pose proof (len_nonneg s) as Hn.
  assert (0 <= len s / size)%Z by (apply Z.div_pos; lia).
  unfold ceil_div in Hlen.
  destruct (Z.eqb_spec (len s `mod` size) 0) as [Hz|Hnz];
    unfold chunk_at, len in *; rewrite length_take, length_drop;
    split; intros Hpos; nia.
Qed.

(** ** [Flatten] *)

Lemma Flatten_loop_concat {T} (l : list (list T)) (acc : list T) :
  Flatten_loop acc l = acc ++ concat l.
Proof.
  revert acc. induction l as [|x l IH]; intros acc; simpl.
  - by rewrite app_nil_r.
  - by rewrite IH, app_assoc.
Qed.

Lemma Flatten_count_sum {T} (l : list (list T)) (acc : Z) :
  (0 <= acc)%Z -> (acc + len (concat l) <= GoInt.max_int)%Z ->
  Flatten_count acc l = (acc + len (concat l))%Z.
Proof.
  revert acc. induction l as [|x l IH]; intros acc Hacc Hmax; simpl.
  - unfold len. simpl. lia.
  - pose proof min_int_value. pose proof (len_nonneg x).
    pose proof (len_nonneg (concat l)).
    unfold len in *. simpl in Hmax. rewrite length_app in *.
    unfold GoInt.add. rewrite wrap_in_range by lia.
    rewrite IH by lia. lia.
Qed.

(** [Flatten] is the concatenation whenever the total length is an [int]. *)
Lemma Flatten_concat {T} (l : list (list T)) :
  (len (concat l) <= GoInt.max_int)%Z -> Flatten l = Ret (concat l).
Proof.
  intros Hmax. unfold Flatten. rewrite Flatten_count_sum by lia.
  unfold make_cap. pose proof (len_nonneg (concat l)).
  destruct (Z.ltb_spec (0 + len (concat l)) 0) as [|_]; [lia|].
  cbn [mbind exec_bind mret exec_ret]. by rewrite Flatten_loop_concat.
Qed.

(** ** [Chunk]: the size check *)

Lemma string_app_inj_r (s1 s2 t : string) : s1 +:+ t = s2 +:+ t -> s1 = s2.
Proof.
  assert (Hlen : forall a b, String.length (a +:+ b)
                             = String.length a + String.length b).
  { intros a b. induction a as [|c a IH]; simpl; [done | by rewrite IH]. }
  revert s2. induction s1 as [|c s1 IH]; intros [|c' s2] Heq; simpl in Heq.
  - done.
  - apply (f_equal String.length) in Heq. rewrite !Hlen in Heq.
    simpl in Heq. lia.
  - apply (f_equal String.length) in Heq. rewrite !Hlen in Heq.
    simpl in Heq. lia.
  - injection Heq as -> Heq. f_equal. by apply IH.
Qed.

(** The message of the error determines the rejected size. *)
Lemma Errorf_chunk_size_inj (a b : Z) :
  Errorf_chunk_size a = Errorf_chunk_size b -> a = b.
Proof.
  unfold Errorf_chunk_size. intros Heq. injection Heq as Heq.
  apply string_app_inj_r in Heq. by apply (inj pretty) in Heq.
Qed.

(** A size that is not positive is rejected before anything is computed: a
    nil result and the error naming the size. *)
Lemma Chunk_invalid_size {T} (s : list T) (size : Z) :
  (size <= 0)%Z -> Chunk s size = Ret (None, Some (Errorf_chunk_size size)).
Proof.
  intros Hsize. unfold Chunk.
  by destruct (Z.leb_spec size 0) as [_|]; [|lia].
Qed.

(** A positive size in range is accepted: a result and a nil error. *)
Lemma Chunk_valid_size_in_range {T} (s : list T) (size : Z) :
  chunk_in_range s size ->
  exists r, Chunk s size = Ret (Some r, None).
Proof. intros Hrange. rewrite Chunk_in_range_result by done. by eexists. Qed.

(** ** [Chunk]: round trip and shape on the inputs in range *)

(** X28. For a positive size with [len(s) + size - 1] within [int], [Chunk]
    returns a result and a nil error, and [Flatten] of its groups, which
    is their concatenation in order, is the input slice. *)
Lemma Chunk_roundtrip_in_range {T} (s : list T) (size : Z) :
  chunk_in_range s size ->
  exists r, Chunk s size = Ret (Some r, None) /\
            Flatten (Chunks r) = Ret s /\
            concat (Chunks r) = s.
Proof.
  intros Hrange. rewrite Chunk_in_range_result by done. eexists. split; [done|].
  destruct Hrange as [Hsize Hmax]. cbn [Chunks].
  rewrite Flatten_concat by (rewrite concat_chunks_of by done; lia).
  by rewrite concat_chunks_of.
Qed.

(** X29. For a positive size with [len(s) + size - 1] within [int], [Chunk]
    returns [ceil(len(s) / size)] groups, [ChunkSize = size],
    [Total = len(s)] and [Remainder = len(s) mod size]; every group before
    the last has [size] elements and the last has the remainder, or [size]
    when the remainder is zero. *)
Lemma Chunk_shape_in_range {T} (s : list T) (size : Z) :
  chunk_in_range s size ->
  exists r, Chunk s size = Ret (Some r, None) /\
    len (Chunks r) = ceil_div (len s) size /\
    ChunkSize r = size /\
    Total r = len s /\
    Remainder r = (len s `mod` size)%Z /\
    forall (j : nat) (c : list T), Chunks r !! j = Some c ->
      (S j < length (Chunks r) -> len c = size) /\
      (S j = length (Chunks r) ->
         len c = if (len s `mod` size =? 0)%Z then size
                 else (len s `mod` size)%Z).
Proof.
  intros Hrange. rewrite Chunk_in_range_result by done. eexists. split; [done|].
  destruct Hrange as [Hsize Hmax]. cbn [Chunks ChunkSize Total Remainder].
  split; [by apply length_chunks_of|]. repeat split; try done.
  - intros Hj. by eapply chunks_of_lengths.
  - intros Hj. by eapply chunks_of_lengths.
Qed.

(** The concrete cases of the specification. *)
Example Chunk_six_by_three :
  Chunk [1; 2; 3; 4; 5; 6]%Z 3
  = Ret (Some (mkChunkResult [[1; 2; 3]; [4; 5; 6]]%Z 3 6 0), None).
Proof. reflexivity. Qed.

Example Chunk_five_by_three :
  Chunk [1; 2; 3; 4; 5]%Z 3
  = Ret (Some (mkChunkResult [[1; 2; 3]; [4; 5]]%Z 3 5 2), None).
Proof. reflexivity. Qed.

Example Chunk_empty : Chunk (@nil Z) 3 = Ret (Some (mkChunkResult [] 3 0 0), None).
Proof. reflexivity. Qed.

Example Flatten_with_empty_nested :
  Flatten [[1; 2; 3]; []; [4; 5; 6]]%Z = Ret [1; 2; 3; 4; 5; 6]%Z.
Proof. reflexivity. Qed.

Example TakeWhile_test_strings :
  TakeWhile test_strings has_length_3 = ["foo"; "bar"; "aba"].
Proof. reflexivity. Qed.

(** ** [Chunk] where the ceiling division overflows *)

Lemma wrap_above (z : Z) :
  (GoInt.max_int < z <= GoInt.max_int + GoInt.modulus)%Z ->
  GoInt.wrap z = (z - GoInt.modulus)%Z.
Proof.
  unfold GoInt.wrap, GoInt.min_int, GoInt.max_int, GoInt.modulus, GoInt.bits.
  intros Hz.
  replace (z - - 2 ^ (64 - 1))%Z
    with ((z - 2 ^ 64 + 2 ^ (64 - 1)) + 1 * 2 ^ 64)%Z by lia.
  rewrite Z_mod_plus_full, Z.mod_small; lia.
Qed.

(** X30. Past the range the computed number of groups is not positive, for
    any slice and positive size: [Chunk] either panics in [make] or returns
    a result without any group. *)
Lemma Chunk_out_of_range {T} (s : list T) (size : Z) :
  (0 < size <= GoInt.max_int)%Z ->
  (len s <= GoInt.max_int)%Z ->
  (GoInt.max_int < len s + size - 1)%Z ->
  Chunk s size = Panic "makeslice: len out of range" \/
  Chunk s size
  = Ret (Some (mkChunkResult [] size (len s) (len s `mod` size)), None).
Proof.
  intros Hsize Hlen Hover.
  pose proof max_int_value as Hmaxv. pose proof min_int_value as Hminv.
  assert (Hmod : GoInt.modulus = 18446744073709551616%Z) by reflexivity.
  pose proof (len_nonneg s) as Hn.
  unfold Chunk, int_div, int_rem.
  destruct (Z.leb_spec size 0) as [|_]; [lia|].
  destruct (Z.eqb_spec size 0) as [|_]; [lia|].
  cbn [mbind exec_bind].
  rewrite sub_add_wrap, (wrap_above (len s + size - 1)) by lia.
  rewrite Z.rem_mod_nonneg by lia.
  set (m := (len s + size - 1 - GoInt.modulus)%Z).
  assert (Hm : (GoInt.min_int <= m < 0)%Z) by (unfold m; lia).
  pose proof (Z.quot_rem' m size) as Hqr.
  pose proof (Z.rem_nonpos m size ltac:(lia) ltac:(lia)) as Hrem.
  pose proof (Z.rem_bound_abs m size ltac:(lia)) as Habs.
  assert (Hq : (GoInt.min_int <= m ÷ size <= 0)%Z) by nia.
  rewrite (wrap_in_range (m ÷ size)) by lia.
  unfold make. destruct (Z.ltb_spec (m ÷ size) 0) as [Hneg|Hzero].
  - left. reflexivity.
  - right. replace (m ÷ size)%Z with 0%Z by lia. reflexivity.
Qed.

(** C1. The round trip [Flatten(Chunk(s, k).Chunks) == s] is lost where the
    ceiling division overflows: for a slice of four elements and the
    largest [int] as size, [Chunk] returns a result with no error and no
    group at all, so flattening its groups gives the empty slice and not
    the input. *)
Theorem Chunk_overflow_breaks_roundtrip :
  forall (T : Type) (a b c d : T),
    (0 < GoInt.max_int)%Z /\
    Chunk [a; b; c; d] GoInt.max_int
    = Ret (Some (mkChunkResult [] GoInt.max_int 4 4), None) /\
    Flatten (@nil (list T)) = Ret [] /\
    Flatten (@nil (list T)) <> Ret [a; b; c; d].
Proof.
  intros T a b c d. repeat split. discriminate.
Qed.

(** C2. The number of groups is not [ceil(len(s) / size)] where the ceiling
    division overflows: for a slice of five elements and the largest [int]
    as size the ceiling is 1, and [Chunk] returns no group, with
    [Total = 5] and [Remainder = 5]. *)
Theorem Chunk_overflow_wrong_count :
  forall (T : Type) (a b c d e : T),
    ceil_div (len [a; b; c; d; e]) GoInt.max_int = 1%Z /\
    exists r : ChunkResult T,
      Chunk [a; b; c; d; e] GoInt.max_int = Ret (Some r, None) /\
      len (Chunks r) = 0%Z /\
      Total r = 5%Z /\
      Remainder r = 5%Z.
Proof.
  intros T a b c d e. split; [reflexivity|].
  exists (mkChunkResult [] GoInt.max_int 5 5). repeat split.
Qed.

(** C3. A positive size can still make [Chunk] fail: for a slice of two
    elements and the largest [int] as size the computed number of groups is
    -1 and [make] panics.  A size that is not positive yields the error
    naming it and a nil result, as the claim says. *)
Theorem Chunk_overflow_panics :
  forall (T : Type) (a b : T),
    (0 < GoInt.max_int)%Z /\
    Chunk [a; b] GoInt.max_int = Panic "makeslice: len out of range" /\
    Chunk [a; b] 0 = Ret (None, Some (Errorf_chunk_size 0)) /\
    Chunk [a; b] (-7)
    = Ret (None,
           Some (errorString
                   "-7 is not a valid chunk size, you must provide a positive integer")).
Proof.
  intros T a b. repeat split.
Qed.

(** The in-range lemmas at the inputs of the package's tests. *)
Lemma Chunk_roundtrip_in_range_tests :
  chunk_in_range [1; 2; 3; 4; 5; 6]%Z 3 /\
  exists r, Chunk [1; 2; 3; 4; 5; 6]%Z 3 = Ret (Some r, None) /\
            Flatten (Chunks r) = Ret [1; 2; 3; 4; 5; 6]%Z /\
            concat (Chunks r) = [1; 2; 3; 4; 5; 6]%Z.
Proof.
  assert (Hrange : chunk_in_range [1; 2; 3; 4; 5; 6]%Z 3).
  { unfold chunk_in_range, len. pose proof max_int_value. simpl. lia. }
  split; [exact Hrange | apply (Chunk_roundtrip_in_range _ _ Hrange)].
Defined.

Lemma Chunk_shape_in_range_tests :
  chunk_in_range [1; 2; 3; 4; 5]%Z 3 /\
  exists r, Chunk [1; 2; 3; 4; 5]%Z 3 = Ret (Some r, None) /\
    len (Chunks r) = 2%Z /\ Total r = 5%Z /\ Remainder r = 2%Z.
Proof.
  assert (Hrange : chunk_in_range [1; 2; 3; 4; 5]%Z 3).
  { unfold chunk_in_range, len. pose proof max_int_value. simpl. lia. }
  split; [exact Hrange|].
  destruct (Chunk_shape_in_range _ _ Hrange) as (r & Hr & Hlen & _ & Ht & Hm & _).
  exists r. repeat split; [exact Hr | exact Hlen | exact Ht | exact Hm].
Defined.

(** * Further properties of the package *)

(** ** [Filter] *)

Lemma Filter_loop_acc {T} (p : T -> bool) (acc s : list T) :
  Filter_loop p acc s = acc ++ Filter_loop p [] s.
Proof.
  revert acc. induction s as [|x s IH]; intros acc; simpl.
  - by rewrite app_nil_r.
  - destruct (p x); [|apply IH].
    rewrite (IH (acc ++ [x])), (IH [x]). by rewrite <- app_assoc.
Qed.

Lemma Filter_cons {T} (x : T) (s : list T) (p : T -> bool) :
  Filter (x :: s) p = if p x then x :: Filter s p else Filter s p.
Proof.
  unfold Filter. simpl. destruct (p x); [|reflexivity].
  by rewrite Filter_loop_acc.
Qed.

Lemma Filter_filter {T} (s : list T) (p : T -> bool) :
  Filter s p = filter (fun x => p x = true) s.
Proof.
  induction s as [|x s IH]; [reflexivity|].
  rewrite Filter_cons, filter_cons, IH.
  destruct (p x); by case_decide.
Qed.

Lemma Filter_app {T} (s1 s2 : list T) (p : T -> bool) :
  Filter (s1 ++ s2) p = Filter s1 p ++ Filter s2 p.
Proof. rewrite !Filter_filter. apply filter_app. Qed.

(** X1. [Filter(s, p)] holds exactly the elements of [s] that satisfy [p]:
    it is a subsequence of [s] (same relative order, nothing added), every
    element of it satisfies [p], an element of [s] is in it if and only if
    it satisfies [p], and it is never longer than [s]. *)
Theorem Filter_selects_satisfying :
  forall (T : Type) (s : list T) (p : T -> bool),
    Filter s p `sublist_of` s /\
    Forall (satisfies p) (Filter s p) /\
    (forall x : T, x ∈ Filter s p <-> x ∈ s /\ p x = true) /\
    length (Filter s p) <= length s.
Proof.
  intros T s p. rewrite Filter_filter.
  split; [apply sublist_filter|]. split; [|split].
  - apply Forall_forall. intros x Hx. by apply list_elem_of_filter in Hx as [Hp _].
  - intros x. rewrite list_elem_of_filter. tauto.
  - apply length_filter.
Qed.

(** X2. [Filter] by a predicate and by its negation split the slice: the
    two results together are a rearrangement of [s], and their lengths add
    up to [len(s)]. *)
Theorem Filter_negate_partition :
  forall (T : Type) (s : list T) (p : T -> bool),
    Filter s p ++ Filter s (negate p) ≡ₚ s /\
    length (Filter s p) + length (Filter s (negate p)) = length s.
Proof.
  intros T s p.
  assert (Hperm : Filter s p ++ Filter s (negate p) ≡ₚ s).
  { induction s as [|x s IH]; [reflexivity|].
    rewrite !Filter_cons. unfold negate at 1. destruct (p x); simpl.
    - by rewrite IH.
    - rewrite <- Permutation_middle. by rewrite IH. }
  split; [exact Hperm|]. rewrite <- length_app. by rewrite Hperm.
Qed.

(** X3. Filtering relates to the scans: every element of [Filter(s, p)]
    passes [All]; [Filter(s, p)] is [s] itself exactly when [All(s, p)];
    it is empty exactly when [Any(s, p)] is false; and filtering twice by
    the same predicate changes nothing. *)
Theorem Filter_All_Any :
  forall (T : Type) (s : list T) (p : T -> bool),
    All (Filter s p) p = true /\
    (Filter s p = s <-> All s p = true) /\
    (Filter s p = [] <-> Any s p = false) /\
    Filter (Filter s p) p = Filter s p.
Proof.
  intros T s p. repeat split.
  - induction s as [|x s IH]; [reflexivity|]. rewrite Filter_cons.
    destruct (p x) eqn:Hx; [simpl; by rewrite Hx | exact IH].
  - induction s as [|x s IH]; [reflexivity|]. rewrite Filter_cons. simpl.
    destruct (p x) eqn:Hx; simpl.
    + intros Heq. injection Heq as Heq. by apply IH.
    + intros Heq. apply (f_equal length) in Heq.
      pose proof (length_filter (fun y => p y = true) s) as Hle.
      rewrite <- Filter_filter in Hle. simpl in Heq. lia.
  - induction s as [|x s IH]; [reflexivity|]. rewrite Filter_cons. simpl.
    destruct (p x) eqn:Hx; simpl; [|discriminate].
    intros Hall. f_equal. by apply IH.
  - induction s as [|x s IH]; [reflexivity|]. rewrite Filter_cons. simpl.
    destruct (p x); [discriminate | exact IH].
  - induction s as [|x s IH]; [reflexivity|]. rewrite Filter_cons. simpl.
    destruct (p x); [discriminate | exact IH].
  - induction s as [|x s IH]; [reflexivity|]. rewrite Filter_cons.
    destruct (p x) eqn:Hx; [|exact IH].
    rewrite Filter_cons, Hx. by rewrite IH.
Qed.

(** X4. Two filters in a row select by the conjunction of the predicates,
    so their order does not matter. *)
Theorem Filter_Filter_conjunction :
  forall (T : Type) (s : list T) (p q : T -> bool),
    Filter (Filter s p) q = Filter s (fun x => p x && q x) /\
    Filter (Filter s p) q = Filter (Filter s q) p.
Proof.
  intros T s p q.
  assert (Hconj : forall p q : T -> bool,
            Filter (Filter s p) q = Filter s (fun x => p x && q x)).
  { clear p q. intros p q. induction s as [|x s IH]; [reflexivity|].
    rewrite !Filter_cons. destruct (p x); simpl; [|exact IH].
    rewrite Filter_cons. destruct (q x); by rewrite IH. }
  split; [apply Hconj|]. rewrite !Hconj. clear Hconj.
  induction s as [|x s IH]; [reflexivity|].
  rewrite !Filter_cons, IH. by rewrite (andb_comm (p x)).
Qed.

(** ** [Count] *)

(** Closes a bound on a concrete slice length against [GoInt.max_int]. *)
Ltac len_in_range :=
  pose proof max_int_value; pose proof min_int_value;
  unfold chunk_in_range, len; simpl; lia.

Lemma Count_loop_sum {T} `{EqDecision T} (v : T) (s : list T) (acc : Z) :
  (0 <= acc)%Z -> (acc + len s <= GoInt.max_int)%Z ->
  Count_loop v acc s
  = (acc + len (Filter s (fun x => bool_decide (v = x))))%Z.
Proof.
  revert acc. induction s as [|x s IH]; intros acc Hacc Hmax.
  - unfold len. simpl. lia.
  - pose proof min_int_value. cbn [Count_loop]. rewrite Filter_cons.
    unfold len in *. cbn [length] in Hmax.
    destruct (bool_decide (v = x)).
    + unfold GoInt.add. rewrite wrap_in_range by lia.
      rewrite IH by lia. cbn [length]. lia.
    + by rewrite IH by lia.
Qed.

(** X5. [Count(s, v)] is the length of [Filter(s, x => v == x)], and lies
    between 0 and [len(s)]; the counter never overflows since the length of
    a slice is an [int]. *)
Theorem Count_is_length_of_Filter :
  forall (T : Type) (EqT : EqDecision T) (s : list T) (v : T),
    (len s <= GoInt.max_int)%Z ->
    Count s v = len (Filter s (fun x => bool_decide (v = x))) /\
    (0 <= Count s v <= len s)%Z.
Proof.
  intros T EqT s v Hmax. unfold Count. rewrite Count_loop_sum by lia.
  split; [lia|].
  pose proof (length_filter (fun x => bool_decide (v = x) = true) s) as Hle.
  rewrite <- Filter_filter in Hle. unfold len. lia.
Qed.

Lemma Count_is_length_of_Filter_witness :
  (len [1; 2; 3; 5; 1; 5]%Z <= GoInt.max_int)%Z /\
  Count [1; 2; 3; 5; 1; 5]%Z 1%Z
  = len (Filter [1; 2; 3; 5; 1; 5]%Z (fun x => bool_decide (1%Z = x))) /\
  (0 <= Count [1; 2; 3; 5; 1; 5]%Z 1%Z <= len [1; 2; 3; 5; 1; 5]%Z)%Z.
Proof.
  split; [len_in_range|].
  apply (Count_is_length_of_Filter Z _ [1; 2; 3; 5; 1; 5]%Z 1%Z). len_in_range.
Defined.

(** X6. [Count(s, v)] is 0 exactly when [v] does not occur in [s], positive
    exactly when [Any] finds an element equal to [v], and [len(s)] exactly
    when [All] elements equal [v]. *)
Theorem Count_zero_iff_absent :
  forall (T : Type) (EqT : EqDecision T) (s : list T) (v : T),
    (len s <= GoInt.max_int)%Z ->
    (Count s v = 0%Z <-> v ∉ s) /\
    ((0 < Count s v)%Z <-> Any s (fun x => bool_decide (v = x)) = true) /\
    (Count s v = len s <-> All s (fun x => bool_decide (v = x)) = true).
Proof.
  intros T EqT s v Hmax. unfold Count. rewrite Count_loop_sum by lia.
  set (p := fun x => bool_decide (v = x)).
  assert (Hlen : forall l : list T, length (Filter l p) <= length l).
  { intros l. rewrite Filter_filter. apply length_filter. }
  unfold len. clear Hmax. split; [|split].
  - induction s as [|x s IH]; [split; [intros _; apply not_elem_of_nil | done]|].
    rewrite Filter_cons, not_elem_of_cons. unfold p at 1.
    case_bool_decide as Hv; cbn [length].
    + split; [lia | intros [Hne _]; done].
    + rewrite <- IH. split; [intros Hz; split; [done | lia] | intros [_ Hz]; lia].
  - induction s as [|x s IH]; [simpl; split; [lia | discriminate]|].
    rewrite Filter_cons. cbn [Any]. destruct (p x); cbn [length]; [|exact IH].
    split; [done | lia].
  - induction s as [|x s IH]; [done|].
    rewrite Filter_cons. cbn [All]. specialize (Hlen s).
    destruct (p x); cbn [length negb].
    + rewrite <- IH. lia.
    + split; [lia | discriminate].
Qed.

Lemma Count_zero_iff_absent_witness :
  (len [1; 2; 3; 5; 1; 5]%Z <= GoInt.max_int)%Z /\
  (Count [1; 2; 3; 5; 1; 5]%Z 45%Z = 0%Z <-> 45%Z ∉ [1; 2; 3; 5; 1; 5]%Z) /\
  ((0 < Count [1; 2; 3; 5; 1; 5]%Z 45%Z)%Z
   <-> Any [1; 2; 3; 5; 1; 5]%Z (fun x => bool_decide (45%Z = x)) = true) /\
  (Count [1; 2; 3; 5; 1; 5]%Z 45%Z = len [1; 2; 3; 5; 1; 5]%Z
   <-> All [1; 2; 3; 5; 1; 5]%Z (fun x => bool_decide (45%Z = x)) = true).
Proof.
  split; [len_in_range|].
  apply (Count_zero_iff_absent Z _ [1; 2; 3; 5; 1; 5]%Z 45%Z). len_in_range.
Defined.

(** ** [Map] composed with itself and with the other functions *)

Lemma Map_fmap {A B} (s : list A) (f : A -> B) : Map s f = f <$> s.
Proof. unfold Map. by rewrite Map_loop_fmap. Qed.

(** X7. Mapping twice is mapping once with the composed function, mapping
    a concatenation is concatenating the mapped parts, and mapping the
    identity returns the slice unchanged. *)
Theorem Map_fusion :
  forall (A B C : Type) (s s' : list A) (f : A -> B) (g : B -> C),
    Map (Map s f) g = Map s (fun x => g (f x)) /\
    Map (s ++ s') f = Map s f ++ Map s' f /\
    Map s (fun x => x) = s.
Proof.
  intros A B C s s' f g. rewrite !Map_fmap. split; [|split].
  - by rewrite <- list_fmap_compose.
  - apply fmap_app.
  - apply list_fmap_id.
Qed.

(** X8. Selecting after a transformation is transforming after selecting
    by the composed predicate, and likewise [All] and [Any] over a mapped
    slice are [All] and [Any] of the composed predicate over the
    original. *)
Theorem Filter_All_Any_of_Map :
  forall (A B : Type) (s : list A) (f : A -> B) (p : B -> bool),
    Filter (Map s f) p = Map (Filter s (fun x => p (f x))) f /\
    All (Map s f) p = All s (fun x => p (f x)) /\
    Any (Map s f) p = Any s (fun x => p (f x)).
Proof.
  intros A B s f p. rewrite !Map_fmap. split; [|split].
  - induction s as [|x s IH]; [reflexivity|].
    rewrite fmap_cons, !Filter_cons. destruct (p (f x)); [|exact IH].
    by rewrite fmap_cons, IH.
  - induction s as [|x s IH]; [reflexivity|].
    rewrite fmap_cons. simpl. by rewrite IH.
  - induction s as [|x s IH]; [reflexivity|].
    rewrite fmap_cons. simpl. by rewrite IH.
Qed.

(** ** [All] and [Any] over concatenations *)

(** X9. [All] of a concatenation is the conjunction, [Any] the disjunction,
    of the scans of the parts; [Any] is the negation of [All] on the
    negated predicate; and on a slice that is not empty [All] implies
    [Any]. *)
Theorem All_Any_app :
  forall (T : Type) (s s' : list T) (p : T -> bool),
    All (s ++ s') p = All s p && All s' p /\
    Any (s ++ s') p = Any s p || Any s' p /\
    Any s p = negb (All s (negate p)) /\
    (s <> [] -> All s p = true -> Any s p = true).
Proof.
  intros T s s' p. repeat split.
  - induction s as [|x s IH]; [reflexivity|]. simpl. by destruct (p x).
  - induction s as [|x s IH]; [reflexivity|]. simpl. by destruct (p x).
  - induction s as [|x s IH]; [reflexivity|]. simpl. unfold negate at 1.
    destruct (p x); [reflexivity | exact IH].
  - destruct s as [|x s]; [done|]. simpl. intros _. by destruct (p x).
Qed.

(** ** [TakeWhile] and [SkipWhile]: prefixes, repetition, concatenation *)

(** X10. [TakeWhile(s, p)] is the longest prefix of [s] whose elements all
    satisfy [p]; it is also a prefix of [Filter(s, p)]; it is all of [s]
    exactly when [All(s, p)], and empty exactly when [s] is empty or its
    first element fails [p]. *)
Theorem TakeWhile_longest_prefix_and_Filter :
  forall (T : Type) (s : list T) (p : T -> bool),
    longest_satisfying_prefix p s (TakeWhile s p) /\
    TakeWhile s p `prefix_of` Filter s p /\
    (TakeWhile s p = s <-> All s p = true) /\
    (TakeWhile s p = [] <-> p <$> head s <> Some true).
Proof.
  intros T s p. split; [apply TakeWhile_longest_prefix|]. split; [|split].
  - induction s as [|x s IH]; [done|].
    rewrite TakeWhile_cons, Filter_cons.
    destruct (p x); [by apply prefix_cons | apply prefix_nil].
  - induction s as [|x s IH]; [done|]. rewrite TakeWhile_cons. simpl.
    destruct (p x); simpl; [|done].
    rewrite <- IH. split; [by intros [= ->] | by intros ->].
  - destruct s as [|x s]; [done|]. rewrite TakeWhile_cons. simpl.
    destruct (p x); split; done.
Qed.

(** X11. Applying [TakeWhile] or [SkipWhile] again with the same predicate
    changes nothing, and each applied to the result of the other gives the
    empty slice. *)
Theorem TakeWhile_SkipWhile_repeated :
  forall (T : Type) (s : list T) (p : T -> bool),
    TakeWhile (TakeWhile s p) p = TakeWhile s p /\
    SkipWhile (SkipWhile s p) p = SkipWhile s p /\
    SkipWhile (TakeWhile s p) p = [] /\
    TakeWhile (SkipWhile s p) p = [].
Proof.
  intros T s p. repeat split.
  - induction s as [|x s IH]; [reflexivity|]. rewrite TakeWhile_cons.
    destruct (p x) eqn:Hx; [|reflexivity]. by rewrite TakeWhile_cons, Hx, IH.
  - induction s as [|x s IH]; [reflexivity|]. rewrite SkipWhile_cons.
    destruct (p x) eqn:Hx; [exact IH|]. by rewrite SkipWhile_cons, Hx.
  - induction s as [|x s IH]; [reflexivity|]. rewrite TakeWhile_cons.
    destruct (p x) eqn:Hx; [|reflexivity]. by rewrite SkipWhile_cons, Hx.
  - induction s as [|x s IH]; [reflexivity|]. rewrite SkipWhile_cons.
    destruct (p x) eqn:Hx; [exact IH|]. by rewrite TakeWhile_cons, Hx.
Qed.

(** X12. On a concatenation [TakeWhile] continues into the second part
    exactly when the whole first part satisfies the predicate, and
    [SkipWhile] then skips all of the first part; otherwise both are decided
    in the first part. *)
Theorem TakeWhile_SkipWhile_app_parts :
  forall (T : Type) (s s' : list T) (p : T -> bool),
    TakeWhile (s ++ s') p
    = (if All s p then s ++ TakeWhile s' p else TakeWhile s p) /\
    SkipWhile (s ++ s') p
    = (if All s p then SkipWhile s' p else SkipWhile s p ++ s').
Proof.
  intros T s s' p. split.
  - induction s as [|x s IH]; [reflexivity|].
    rewrite <- app_comm_cons, !TakeWhile_cons. simpl.
    destruct (p x); simpl; [|reflexivity]. rewrite IH. by destruct (All s p).
  - induction s as [|x s IH]; [reflexivity|].
    rewrite <- app_comm_cons, !SkipWhile_cons. simpl.
    destruct (p x); simpl; [exact IH | reflexivity].
Qed.

(** ** [Flatten] *)

(** X13. When the inner lengths add up to an [int], [Flatten] returns the
    inner slices concatenated in outer order: its length is the sum of the
    inner lengths and its elements are exactly the elements of the inner
    slices. *)
Theorem Flatten_concatenates :
  forall (T : Type) (l : list (list T)),
    (len (concat l) <= GoInt.max_int)%Z ->
    exists r : list T,
      Flatten l = Ret r /\
      r = concat l /\
      length r = sum_list_with length l /\
      forall x : T, x ∈ r <-> exists inner, inner ∈ l /\ x ∈ inner.
Proof.
  intros T l Hmax. exists (concat l). split; [by apply Flatten_concat|].
  split; [reflexivity|]. split.
  - clear Hmax. induction l as [|i l IH]; [reflexivity|].
    simpl. rewrite length_app. by rewrite IH.
  - intros x. rewrite !list_elem_of_In, in_concat.
    split; intros (inner & Hin & Hx); exists inner;
      by rewrite ?list_elem_of_In in *.
Qed.

Lemma Flatten_concatenates_witness :
  (len (concat [[1; 2; 3]; []; [4; 5; 6]]%Z) <= GoInt.max_int)%Z /\
  exists r : list Z,
    Flatten [[1; 2; 3]; []; [4; 5; 6]]%Z = Ret r /\
    r = concat [[1; 2; 3]; []; [4; 5; 6]]%Z /\
    length r = sum_list_with length [[1; 2; 3]; []; [4; 5; 6]]%Z /\
    forall x : Z, x ∈ r <-> exists inner, inner ∈ [[1; 2; 3]; []; [4; 5; 6]]%Z /\ x ∈ inner.
Proof.
  split; [len_in_range|].
  apply (Flatten_concatenates Z [[1; 2; 3]; []; [4; 5; 6]]%Z). len_in_range.
Defined.

(** X14. Within that range [Flatten] of a concatenation of outer slices is
    the concatenation of the two results, empty inner slices contribute
    nothing (filtering them out first gives the same result), and
    flattening after mapping every inner slice is mapping the flattened
    slice. *)
Theorem Flatten_app_Filter_Map :
  forall (A B : Type) (l l' : list (list A)) (f : A -> B),
    (len (concat (l ++ l')) <= GoInt.max_int)%Z ->
    Flatten (l ++ l')
    = (r ← Flatten l; r' ← Flatten l'; mret (r ++ r')) /\
    Flatten (Filter l (fun inner => negb (len inner =? 0)%Z)) = Flatten l /\
    Flatten (Map l (fun inner => Map inner f))
    = (r ← Flatten l; mret (Map r f)).
Proof.
  intros A B l l' f Hmax.
  assert (Hl : (len (concat l) <= GoInt.max_int)%Z /\
               (len (concat l') <= GoInt.max_int)%Z).
  { unfold len in *. rewrite concat_app, length_app in Hmax. lia. }
  destruct Hl as [Hl Hl'].
  assert (Hfilter : concat (Filter l (fun inner => negb (len inner =? 0)%Z))
                    = concat l).
  { clear. induction l as [|i l IH]; [reflexivity|]. rewrite Filter_cons.
    destruct i as [|x i]; simpl; [exact IH | by rewrite IH]. }
  assert (Hmap : concat (Map l (fun inner => Map inner f)) = Map (concat l) f).
  { clear. rewrite !Map_fmap. induction l as [|i l IH]; [reflexivity|].
    rewrite fmap_cons. cbn [concat]. by rewrite IH, Map_fmap, fmap_app. }
  split; [|split].
  - rewrite !Flatten_concat by done.
    cbn [mbind exec_bind mret exec_ret]. by rewrite concat_app.
  - rewrite !Flatten_concat; rewrite ?Hfilter; done.
  - rewrite !Flatten_concat; rewrite ?Hmap; [done|done|].
    rewrite Map_fmap. unfold len in *. by rewrite length_fmap.
Qed.

Lemma Flatten_app_Filter_Map_witness :
  (len (concat ([[1; 2; 3]; []] ++ [[4; 5; 6]])%Z) <= GoInt.max_int)%Z /\
  Flatten ([[1; 2; 3]; []] ++ [[4; 5; 6]])%Z
  = (r ← Flatten [[1; 2; 3]; []]%Z; r' ← Flatten [[4; 5; 6]]%Z; mret (r ++ r')) /\
  Flatten (Filter [[1; 2; 3]; []]%Z (fun inner => negb (len inner =? 0)%Z))
  = Flatten [[1; 2; 3]; []]%Z /\
  Flatten (Map [[1; 2; 3]; []]%Z (fun inner => Map inner (fun x => x * x)%Z))
  = (r ← Flatten [[1; 2; 3]; []]%Z; mret (Map r (fun x => x * x)%Z)).
Proof.
  split; [len_in_range|].
  apply (Flatten_app_Filter_Map Z Z [[1; 2; 3]; []]%Z [[4; 5; 6]]%Z
           (fun x => x * x)%Z).
  len_in_range.
Defined.

(** ** [ForEach] *)

Lemma ForEach_app {T St} (s s' : list T) (fn : T -> St -> exec St) (st : St) :
  ForEach (s ++ s') fn st = (st' ← ForEach s fn st; ForEach s' fn st').
Proof.
  revert st. induction s as [|x s IH]; intros st; [reflexivity|].
  simpl. destruct (fn x st) as [st1|msg]; [apply IH | reflexivity].
Qed.

(** X15. [ForEach] calls [fn] once for every element, in slice order: with
    a function that never panics the final state is the left fold of the
    calls; a function that records its argument ends with the log
    extended by exactly the slice; and traversing a concatenation is
    traversing the first part and then the second from the state
    reached. *)
Theorem ForEach_calls_in_order :
  forall (T St : Type) (s s' : list T) (g : T -> St -> St)
         (fn : T -> St -> exec St) (st : St) (log : list T),
    ForEach s (fun x st => Ret (g x st)) st
    = Ret (foldl (fun st x => g x st) st s) /\
    ForEach s (fun x log => Ret (log ++ [x])) log = Ret (log ++ s) /\
    ForEach (s ++ s') fn st = (st' ← ForEach s fn st; ForEach s' fn st').
Proof.
  intros T St s s' g fn st log. split; [|split].
  - revert st. induction s as [|x s IH]; intros st; [reflexivity|].
    simpl. apply IH.
  - revert log. induction s as [|x s IH]; intros log; simpl.
    + by rewrite app_nil_r.
    + rewrite IH. by rewrite <- app_assoc.
  - apply ForEach_app.
Qed.

(** X16. [ForEach] panics exactly when some call panics: the slice then
    splits into the elements visited without a panic, the element whose
    call panicked with the same message, and a rest that is never
    visited. *)
Theorem ForEach_panics_at_first_failure :
  forall (T St : Type) (s : list T) (fn : T -> St -> exec St) (st : St)
         (msg : string),
    ForEach s fn st = Panic msg <->
    exists (pre : list T) (x : T) (post : list T) (st' : St),
      s = pre ++ x :: post /\
      ForEach pre fn st = Ret st' /\
      fn x st' = Panic msg.
Proof.
  intros T St s fn st msg. split.
  - revert st. induction s as [|x s IH]; intros st; [discriminate|].
    simpl. destruct (fn x st) as [st1|msg1] eqn:Hx.
    + intros Hp. destruct (IH _ Hp) as (pre & y & post & st' & -> & Hpre & Hy).
      exists (x :: pre), y, post, st'. split; [done|]. simpl.
      rewrite Hx. by split.
    + intros [= ->]. by exists [], x, s, st.
  - intros (pre & x & post & st' & -> & Hpre & Hx).
    rewrite ForEach_app, Hpre. simpl. by rewrite Hx.
Qed.

(** ** [Chunk]: where each element goes *)

Lemma chunks_of_lookup {T} (s : list T) (size : Z) (j : nat) :
  chunks_of s size !! j
  = if decide (j < Z.to_nat (ceil_div (len s) size))
    then Some (chunk_at s size j) else None.
Proof.
  unfold chunks_of. rewrite list_lookup_fmap. case_decide.
  - by rewrite lookup_seq_lt.
  - by rewrite lookup_seq_ge by lia.
Qed.

Lemma chunk_at_lookup {T} (s : list T) (size : Z) (j k : nat) :
  chunk_at s size j !! k
  = if decide (k < Z.to_nat size) then s !! (j * Z.to_nat size + k) else None.
Proof. unfold chunk_at. by rewrite lookup_take, lookup_drop. Qed.

(** The number of groups and the size as natural numbers. *)
Lemma chunk_count_nat {T} (s : list T) (size : Z) :
  (0 < size)%Z ->
  let m := Z.to_nat size in
  let nB := Z.to_nat (ceil_div (len s) size) in
  0 < m /\
  length s <= nB * m /\
  (0 < nB -> (nB - 1) * m < length s).
Proof.
  intros Hsize m nB.
  destruct (ceil_div_least (len s) size Hsize) as [Hle Hleast].
  pose proof (len_nonneg s) as Hn.
  assert (Hnn : (0 <= ceil_div (len s) size)%Z).
  { unfold ceil_div. assert (0 <= len s / size)%Z by (apply Z.div_pos; lia).
    destruct (_ =? _)%Z; lia. }
  assert (Hm : Z.of_nat m = size) by (unfold m; lia).
  assert (HnB : Z.of_nat nB = ceil_div (len s) size) by (unfold nB; lia).
  clearbody m nB. unfold len in *. split; [lia|]. split; [nia|].
  intros Hpos.
  destruct (decide ((nB - 1) * m < length s)) as [|Hge]; [done|]. exfalso.
  specialize (Hleast (Z.of_nat (nB - 1))). nia.
Qed.

(** X17. On the inputs in range the groups lay the slice out row by row:
    the element at offset [k] of group [j] is the element of [s] at index
    [j * size + k], and the element of [s] at index [i] is found in group
    [i / size] at offset [i mod size]. *)
Theorem Chunk_element_position :
  forall (T : Type) (s : list T) (size : Z),
    chunk_in_range s size ->
    exists r : ChunkResult T,
      Chunk s size = Ret (Some r, None) /\
      (forall (j k : nat) (c : list T) (x : T),
         Chunks r !! j = Some c -> c !! k = Some x ->
         k < Z.to_nat size /\ s !! (j * Z.to_nat size + k) = Some x) /\
      (forall (i : nat) (x : T),
         s !! i = Some x ->
         exists c, Chunks r !! (Nat.div i (Z.to_nat size)) = Some c /\
                   c !! (Nat.modulo i (Z.to_nat size)) = Some x).
Proof.
  intros T s size Hrange. rewrite Chunk_in_range_result by done.
  eexists. split; [reflexivity|]. cbn [Chunks].
  destruct Hrange as [Hsize _].
  destruct (chunk_count_nat s size Hsize) as (Hm & Hcover & _).
  split.
  - intros j k c x Hc Hx. rewrite chunks_of_lookup in Hc.
    case_decide; [|done]. injection Hc as <-.
    rewrite chunk_at_lookup in Hx. by case_decide.
  - intros i x Hi. apply lookup_lt_Some in Hi as Hlt.
    pose proof (Nat.div_mod i (Z.to_nat size) ltac:(lia)) as Hdm.
    pose proof (Nat.mod_upper_bound i (Z.to_nat size) ltac:(lia)) as Hmod.
    exists (chunk_at s size (Nat.div i (Z.to_nat size))). split.
    + rewrite chunks_of_lookup. case_decide as Hj; [done|]. exfalso. nia.
    + rewrite chunk_at_lookup. case_decide; [|lia].
      rewrite <- Hi. f_equal. lia.
Qed.

Lemma Chunk_element_position_witness :
  chunk_in_range [1; 2; 3; 4; 5]%Z 3 /\
  exists r : ChunkResult Z,
    Chunk [1; 2; 3; 4; 5]%Z 3 = Ret (Some r, None) /\
    (forall (j k : nat) (c : list Z) (x : Z),
       Chunks r !! j = Some c -> c !! k = Some x ->
       k < Z.to_nat 3 /\ [1; 2; 3; 4; 5]%Z !! (j * Z.to_nat 3 + k) = Some x) /\
    (forall (i : nat) (x : Z),
       [1; 2; 3; 4; 5]%Z !! i = Some x ->
       exists c, Chunks r !! (Nat.div i (Z.to_nat 3)) = Some c /\
                 c !! (Nat.modulo i (Z.to_nat 3)) = Some x).
Proof.
  split; [len_in_range|].
  apply (Chunk_element_position Z [1; 2; 3; 4; 5]%Z 3). len_in_range.
Defined.

(** X18. On the inputs in range no group is empty and none has more than
    [size] elements, and there is no group at all exactly when the slice is
    empty. *)
Theorem Chunk_groups_nonempty_bounded :
  forall (T : Type) (s : list T) (size : Z),
    chunk_in_range s size ->
    exists r : ChunkResult T,
      Chunk s size = Ret (Some r, None) /\
      Forall (fun c => (0 < len c <= size)%Z) (Chunks r) /\
      (Chunks r = [] <-> s = []).
Proof.
  intros T s size Hrange. rewrite Chunk_in_range_result by done.
  eexists. split; [reflexivity|]. cbn [Chunks].
  destruct Hrange as [Hsize _].
  destruct (chunk_count_nat s size Hsize) as (Hm & Hcover & Hlast).
  split.
  - apply Forall_lookup. intros j c Hc. rewrite chunks_of_lookup in Hc.
    case_decide as Hj; [|done]. injection Hc as <-.
    unfold chunk_at, len. rewrite length_take, length_drop.
    specialize (Hlast ltac:(lia)). nia.
  - split.
    + intros Hnil. apply (f_equal length) in Hnil.
      unfold chunks_of in Hnil. rewrite length_fmap, length_seq in Hnil.
      simpl in Hnil. apply length_zero_iff_nil. nia.
    + intros ->. reflexivity.
Qed.

Lemma Chunk_groups_nonempty_bounded_witness :
  chunk_in_range [1; 2; 3; 4; 5]%Z 3 /\
  exists r : ChunkResult Z,
    Chunk [1; 2; 3; 4; 5]%Z 3 = Ret (Some r, None) /\
    Forall (fun c => (0 < len c <= 3)%Z) (Chunks r) /\
    (Chunks r = [] <-> [1; 2; 3; 4; 5]%Z = []).
Proof.
  split; [len_in_range|].
  apply (Chunk_groups_nonempty_bounded Z [1; 2; 3; 4; 5]%Z 3). len_in_range.
Defined.

(** X19. Two edge sizes, on the inputs in range: a size that is at least
    the length of a non-empty slice gives the slice itself as the only
    group, and size 1 gives one singleton group per element, which is
    [Map(s, x => []T{x})]. *)
Theorem Chunk_whole_and_singletons :
  forall (T : Type) (s : list T) (size : Z),
    chunk_in_range s size ->
    exists r : ChunkResult T,
      Chunk s size = Ret (Some r, None) /\
      (s <> [] -> (len s <= size)%Z -> Chunks r = [s]) /\
      (size = 1%Z -> Chunks r = Map s (fun x => [x])).
Proof.
  intros T s size Hrange. rewrite Chunk_in_range_result by done.
  eexists. split; [reflexivity|]. cbn [Chunks].
  destruct Hrange as [Hsize _].
  destruct (chunk_count_nat s size Hsize) as (Hm & Hcover & Hlast).
  split.
  - intros Hne Hle. unfold chunks_of.
    assert (Hlen : 0 < length s) by (destruct s; [done | simpl; lia]).
    assert (HnB : Z.to_nat (ceil_div (len s) size) = 1).
    { destruct (Z.to_nat (ceil_div (len s) size)) as [|[|n]]; [|done|].
      - simpl in Hcover. lia.
      - specialize (Hlast ltac:(lia)). unfold len in *.
        replace (S (S n) - 1) with (S n) in Hlast by lia.
        simpl in Hlast. exfalso. nia. }
    rewrite HnB. cbn [seq fmap list_fmap]. unfold chunk_at.
    rewrite Nat.mul_0_l, drop_0.
    rewrite take_ge; [done | unfold len in *; lia].
  - intros ->. rewrite Map_fmap. apply list_eq. intros i.
    rewrite chunks_of_lookup, list_lookup_fmap.
    change (Z.to_nat 1) with 1 in *.
    destruct (s !! i) as [x|] eqn:Hi; simpl.
    + apply lookup_lt_Some in Hi as Hlt. case_decide; [|lia].
      f_equal. unfold chunk_at. change (Z.to_nat 1) with 1.
      rewrite Nat.mul_1_r. erewrite drop_S by done. reflexivity.
    + apply lookup_ge_None in Hi. case_decide as Hj; [|done].
      specialize (Hlast ltac:(lia)). lia.
Qed.

Lemma Chunk_whole_and_singletons_witness :
  chunk_in_range [1; 2; 3]%Z 1 /\
  exists r : ChunkResult Z,
    Chunk [1; 2; 3]%Z 1 = Ret (Some r, None) /\
    ([1; 2; 3]%Z <> [] -> (len [1; 2; 3]%Z <= 1)%Z -> Chunks r = [[1; 2; 3]%Z]) /\
    (1%Z = 1%Z -> Chunks r = Map [1; 2; 3]%Z (fun x => [x])).
Proof.
  split; [len_in_range|].
  apply (Chunk_whole_and_singletons Z [1; 2; 3]%Z 1). len_in_range.
Defined.

(** X20. A size that is zero or negative is rejected before anything else
    happens: the result pointer is nil, the error message is the decimal
    size followed by the fixed text, and different sizes give different
    messages. *)
Theorem Chunk_rejects_nonpositive_size :
  forall (T : Type) (s : list T) (size : Z),
    (size <= 0)%Z ->
    Chunk s size = Ret (None, Some (Errorf_chunk_size size)) /\
    Error (Errorf_chunk_size size)
    = pretty size
      +:+ " is not a valid chunk size, you must provide a positive integer" /\
    forall size' : Z,
      Errorf_chunk_size size' = Errorf_chunk_size size -> size' = size.
Proof.
  intros T s size Hsize. split; [by apply Chunk_invalid_size|].
  split; [reflexivity|]. intros size'. apply Errorf_chunk_size_inj.
Qed.

Lemma Chunk_rejects_nonpositive_size_witness :
  (-7 <= 0)%Z /\
  Chunk [1; 2; 3]%Z (-7) = Ret (None, Some (Errorf_chunk_size (-7))) /\
  Error (Errorf_chunk_size (-7))
  = pretty (-7)%Z
    +:+ " is not a valid chunk size, you must provide a positive integer" /\
  forall size' : Z,
    Errorf_chunk_size size' = Errorf_chunk_size (-7) -> size' = (-7)%Z.
Proof.
  split; [lia|]. apply (Chunk_rejects_nonpositive_size Z [1; 2; 3]%Z (-7)). lia.
Defined.

(** The largest [int] as size for a slice of two elements meets the
    hypotheses of [Chunk_out_of_range]. *)
Lemma Chunk_out_of_range_witness :
  ((0 < GoInt.max_int <= GoInt.max_int)%Z /\
   (len [1; 2]%Z <= GoInt.max_int)%Z /\
   (GoInt.max_int < len [1; 2]%Z + GoInt.max_int - 1)%Z) /\
  (Chunk [1; 2]%Z GoInt.max_int = Panic "makeslice: len out of range" \/
   Chunk [1; 2]%Z GoInt.max_int
   = Ret (Some (mkChunkResult [] GoInt.max_int (len [1; 2]%Z)
                  (len [1; 2]%Z `mod` GoInt.max_int)), None)).
Proof.
  assert (H1 : (0 < GoInt.max_int <= GoInt.max_int)%Z) by len_in_range.
  assert (H2 : (len [1; 2]%Z <= GoInt.max_int)%Z) by len_in_range.
  assert (H3 : (GoInt.max_int < len [1; 2]%Z + GoInt.max_int - 1)%Z)
    by len_in_range.
  split; [by repeat split|].
  exact (Chunk_out_of_range [1; 2]%Z GoInt.max_int H1 H2 H3).
Defined.

(** ** The early draft: [Map], [Filter], [Flatten], [Chunk] *)

Lemma Draft_Map_zero {A B} `{ZeroValue B} (s : list A) (f : A -> B) :
  Draft.Map s f = replicate (length s) zero_value ++ Map s f.
Proof. unfold Draft.Map, Map. by rewrite !Map_loop_fmap. Qed.

Lemma Draft_Filter_zero {A} `{ZeroValue A} (s : list A) (p : A -> bool) :
  Draft.Filter s p = replicate (length s) zero_value ++ Filter s p.
Proof. unfold Draft.Filter, Filter. by rewrite Filter_loop_acc. Qed.

(** X21. The draft [Map] and [Filter] start from a buffer of [len(s)] zero
    values and append to it: each returns that many zero values followed by
    the result of the later function, so the draft [Map] returns twice as
    many elements as its input, and both agree with the later functions
    only on the empty slice. *)
Theorem Draft_Map_Filter_zero_filled :
  forall (A B : Type) (ZA : ZeroValue A) (ZB : ZeroValue B)
         (s : list A) (f : A -> B) (p : A -> bool),
    Draft.Map s f = replicate (length s) zero_value ++ Map s f /\
    length (Draft.Map s f) = 2 * length s /\
    Draft.Filter s p = replicate (length s) zero_value ++ Filter s p /\
    (Draft.Map s f = Map s f <-> s = []) /\
    (Draft.Filter s p = Filter s p <-> s = []).
Proof.
  intros A B ZA ZB s f p. rewrite Draft_Map_zero, Draft_Filter_zero.
  split; [reflexivity|]. split.
  { rewrite length_app, length_replicate, Map_fmap, length_fmap. lia. }
  split; [reflexivity|]. split; (split; [|by intros ->]); intros Heq;
    apply (f_equal length) in Heq;
    rewrite length_app, length_replicate in Heq;
    apply length_zero_iff_nil; lia.
Qed.

(** X22. The draft [Flatten] allocates the result at its full length and
    then appends: when the inner lengths add up to an [int] it returns that
    many zero values followed by the concatenation. *)
Theorem Draft_Flatten_zero_filled :
  forall (T : Type) (ZT : ZeroValue T) (l : list (list T)),
    (len (concat l) <= GoInt.max_int)%Z ->
    Draft.Flatten l
    = Ret (replicate (length (concat l)) zero_value ++ concat l).
Proof.
  intros T ZT l Hmax. unfold Draft.Flatten.
  rewrite Flatten_count_sum by lia. unfold make.
  pose proof (len_nonneg (concat l)).
  destruct (Z.ltb_spec (0 + len (concat l)) 0) as [|_]; [lia|].
  cbn [mbind exec_bind mret exec_ret]. rewrite Flatten_loop_concat.
  do 3 f_equal. unfold len. lia.
Qed.

Lemma Draft_Flatten_zero_filled_witness :
  (len (concat [[1; 2; 3]; []; [4; 5; 6]]%Z) <= GoInt.max_int)%Z /\
  Draft.Flatten [[1; 2; 3]; []; [4; 5; 6]]%Z
  = Ret (replicate (length (concat [[1; 2; 3]; []; [4; 5; 6]]%Z)) zero_value
         ++ concat [[1; 2; 3]; []; [4; 5; 6]]%Z).
Proof.
  split; [len_in_range|].
  apply (Draft_Flatten_zero_filled Z _ [[1; 2; 3]; []; [4; 5; 6]]%Z).
  len_in_range.
Defined.

(** X23. For a positive size the later [Chunk] returns exactly what the
    draft returns, paired with a nil error, and panics where it panics; for
    size 0 the draft panics on the division where the later function
    returns its error. *)
Theorem Draft_Chunk_agrees_on_positive_size :
  forall (T : Type) (s : list T) (size : Z),
    (0 < size)%Z ->
    Chunk s size = (r ← Draft.Chunk s size; mret (Some r, None)) /\
    Draft.Chunk s 0 = Panic "integer divide by zero" /\
    Chunk s 0 = Ret (None, Some (Errorf_chunk_size 0)).
Proof.
  intros T s size Hsize. split; [|split; reflexivity].
  unfold Chunk, Draft.Chunk.
  destruct (Z.leb_spec size 0) as [|_]; [lia|].
  destruct (int_div _ size) as [nBatches|?]; [|reflexivity].
  cbn [mbind exec_bind].
  destruct (int_rem _ size) as [remainder|?]; [|reflexivity].
  cbn [mbind exec_bind].
  destruct (make nBatches) as [result|?]; [|reflexivity].
  cbn [mbind exec_bind].
  by destruct (Chunk_loop _ _ _ _ _ _ _).
Qed.

Lemma Draft_Chunk_agrees_on_positive_size_witness :
  (0 < 3)%Z /\
  Chunk [1; 2; 3; 4; 5]%Z 3
  = (r ← Draft.Chunk [1; 2; 3; 4; 5]%Z 3; mret (Some r, None)) /\
  Draft.Chunk [1; 2; 3; 4; 5]%Z 0 = Panic "integer divide by zero" /\
  Chunk [1; 2; 3; 4; 5]%Z 0 = Ret (None, Some (Errorf_chunk_size 0)).
Proof.
  split; [lia|].
  apply (Draft_Chunk_agrees_on_positive_size Z [1; 2; 3; 4; 5]%Z 3). lia.
Defined.

(** ** [GroupBy]: the groups as a partition *)

Section GroupByMore.
Context {TKey TValue : Type} `{Countable TKey}.

(** Reading a key the way Go does, an absent key giving the nil slice. *)
Lemma GroupBy_lookup_default (f : TValue -> TKey) (s : list TValue) (k : TKey) :
  default [] (GroupBy s f !! k) = filter (fun x => f x = k) s.
Proof.
  rewrite GroupBy_lookup. case_decide as Hin; [reflexivity|]. simpl.
  symmetry. induction s as [|x s IH]; [reflexivity|].
  rewrite fmap_cons, not_elem_of_cons in Hin. destruct Hin as [Hne Hin].
  rewrite filter_cons. case_decide; [congruence | by apply IH].
Qed.

Lemma filter_key_Filter (f : TValue -> TKey) (s : list TValue) (k : TKey) :
  filter (fun x => f x = k) s = Filter s (fun x => bool_decide (f x = k)).
Proof.
  induction s as [|x s IH]; [reflexivity|].
  rewrite filter_cons, Filter_cons, IH. by case_bool_decide; case_decide.
Qed.

End GroupByMore.

(** X24. The groups of [GroupBy] partition the slice: no stored group is
    empty, every element of a group has the group's key, every group is a
    subsequence of the input, every element of the input is in the group
    stored under its key, and the map is empty exactly when the input
    is. *)
Theorem GroupBy_groups_partition :
  forall (TKey TValue : Type) (EqK : EqDecision TKey) (CntK : Countable TKey)
         (s : list TValue) (keyFn : TValue -> TKey),
    (forall (k : TKey) (g : list TValue),
       GroupBy s keyFn !! k = Some g ->
       g <> [] /\ Forall (fun x => keyFn x = k) g /\ g `sublist_of` s) /\
    (forall x : TValue,
       x ∈ s -> exists g, GroupBy s keyFn !! keyFn x = Some g /\ x ∈ g) /\
    (GroupBy s keyFn = ∅ <-> s = []).
Proof.
  intros TKey TValue EqK CntK s keyFn. split; [|split].
  - intros k g Hg. rewrite GroupBy_lookup in Hg.
    case_decide as Hin; [|done]. injection Hg as <-.
    split; [|split].
    + apply list_elem_of_fmap in Hin as (x & -> & Hx).
      intros Hnil.
      assert (Hf : x ∈ filter (fun y => keyFn y = keyFn x) s)
        by (by apply list_elem_of_filter).
      rewrite Hnil in Hf. by apply elem_of_nil in Hf.
    + apply Forall_forall. intros x Hx.
      by apply list_elem_of_filter in Hx as [Hk _].
    + apply sublist_filter.
  - intros x Hx. rewrite GroupBy_lookup.
    case_decide as Hin.
    + eexists. split; [reflexivity|]. by apply list_elem_of_filter.
    + exfalso. apply Hin. apply list_elem_of_fmap. by exists x.
  - split.
    + intros Hempty. destruct s as [|x s]; [done|]. exfalso.
      assert (Hx : GroupBy (x :: s) keyFn !! keyFn x = None)
        by (by rewrite Hempty, lookup_empty).
      rewrite GroupBy_lookup in Hx. case_decide as Hin; [done|].
      apply Hin. rewrite fmap_cons. left.
    + by intros ->.
Qed.

(** X25. Reading any key from the result, with Go's nil slice for a key
    that is absent, gives [Filter(s, x => keyFn(x) == k)]; and grouping a
    concatenation gives, under every key, the group of the first part
    followed by the group of the second. *)
Theorem GroupBy_lookup_is_Filter :
  forall (TKey TValue : Type) (EqK : EqDecision TKey) (CntK : Countable TKey)
         (s s' : list TValue) (keyFn : TValue -> TKey) (k : TKey),
    default [] (GroupBy s keyFn !! k)
    = Filter s (fun x => bool_decide (keyFn x = k)) /\
    default [] (GroupBy (s ++ s') keyFn !! k)
    = default [] (GroupBy s keyFn !! k) ++ default [] (GroupBy s' keyFn !! k).
Proof.
  intros TKey TValue EqK CntK s s' keyFn k.
  rewrite !GroupBy_lookup_default. split.
  - apply filter_key_Filter.
  - apply filter_app.
Qed.

(** X26. The size of the group read under a key is the number of times
    the key occurs among the keys of the elements:
    [len(GroupBy(s, keyFn)[k]) == Count(Map(s, keyFn), k)]. *)
Theorem GroupBy_group_size_is_Count :
  forall (TKey TValue : Type) (EqK : EqDecision TKey) (CntK : Countable TKey)
         (s : list TValue) (keyFn : TValue -> TKey) (k : TKey),
    (len s <= GoInt.max_int)%Z ->
    len (default [] (GroupBy s keyFn !! k)) = Count (Map s keyFn) k.
Proof.
  intros TKey TValue EqK CntK s keyFn k Hmax.
  assert (Hlen : length (filter (fun x => keyFn x = k) s)
                 = length (Filter (keyFn <$> s) (fun y => bool_decide (k = y)))).
  { clear Hmax. induction s as [|x s IH]; [reflexivity|].
    rewrite filter_cons, fmap_cons, Filter_cons.
    case_decide as Hk; case_bool_decide as Hk'; try congruence;
      cbn [length]; by rewrite IH. }
  rewrite GroupBy_lookup_default. unfold Count.
  rewrite Count_loop_sum; [|lia|].
  2:{ rewrite Map_fmap. unfold len in *. rewrite length_fmap. lia. }
  rewrite Map_fmap. unfold len. lia.
Qed.

Lemma GroupBy_group_size_is_Count_witness :
  (len ["a"; "aa"; "b"; "bbb"] <= GoInt.max_int)%Z /\
  len (default [] (GroupBy ["a"; "aa"; "b"; "bbb"] String.length !! 1))
  = Count (Map ["a"; "aa"; "b"; "bbb"] String.length) 1.
Proof.
  split; [len_in_range|].
  apply (GroupBy_group_size_is_Count nat string _ _
           ["a"; "aa"; "b"; "bbb"] String.length 1).
  len_in_range.
Defined.

(** ** [Chunk] and [Map] *)

(** X27. Grouping commutes with mapping: on the inputs in range the groups
    of [Map(s, f)] are the groups of [s] with [f] mapped over each, and the
    other fields of the two results are equal. *)
Theorem Chunk_of_Map :
  forall (A B : Type) (s : list A) (f : A -> B) (size : Z),
    chunk_in_range s size ->
    exists (r : ChunkResult A) (r' : ChunkResult B),
      Chunk s size = Ret (Some r, None) /\
      Chunk (Map s f) size = Ret (Some r', None) /\
      Chunks r' = Map (Chunks r) (fun c => Map c f) /\
      ChunkSize r' = ChunkSize r /\
      Total r' = Total r /\
      Remainder r' = Remainder r.
Proof.
  intros A B s f size Hrange.
  assert (Hlen : len (Map s f) = len s).
  { unfold len. by rewrite Map_fmap, length_fmap. }
  assert (Hrange' : chunk_in_range (Map s f) size).
  { unfold chunk_in_range in *. by rewrite Hlen. }
  rewrite (Chunk_in_range_result s size Hrange).
  rewrite (Chunk_in_range_result (Map s f) size Hrange').
  do 2 eexists. split; [reflexivity|]. split; [reflexivity|].
  cbn [Chunks ChunkSize Total Remainder]. rewrite Hlen.
  split; [|done].
  unfold chunks_of. rewrite Hlen, !Map_fmap, <- list_fmap_compose.
  apply list_fmap_ext. intros i j _. simpl.
  unfold chunk_at. by rewrite Map_fmap, fmap_take, fmap_drop.
Qed.

Lemma Chunk_of_Map_witness :
  chunk_in_range [1; 2; 3; 4; 5]%Z 2 /\
  exists (r r' : ChunkResult Z),
    Chunk [1; 2; 3; 4; 5]%Z 2 = Ret (Some r, None) /\
    Chunk (Map [1; 2; 3; 4; 5]%Z (fun x => x * x)%Z) 2 = Ret (Some r', None) /\
    Chunks r' = Map (Chunks r) (fun c => Map c (fun x => x * x)%Z) /\
    ChunkSize r' = ChunkSize r /\
    Total r' = Total r /\
    Remainder r' = Remainder r.
Proof.
  split; [len_in_range|].
  apply (Chunk_of_Map Z Z [1; 2; 3; 4; 5]%Z (fun x => x * x)%Z 2).
  len_in_range.
Defined.
